(** * socket.io-redis: the Redis adapter of index.js, embedded and verified

    The adapter is the class [Redis] returned by [adapter(uri, opts)].  Its
    closure variables ([prefix], [uid], [timeout]) and the facade's namespace
    name are the variables of the section below.  The JavaScript objects
    [this.sids] and [this.rooms] are finite maps from a key to a set of keys
    (every stored value is [true]); the Redis clients, the base adapter, the
    codec and the [async] helper are collaborators outside index.js, so what
    the adapter asks of them is recorded as a trace of events and what they
    answer is an argument of the operation.

    Modelling conventions:
    - a payload is kept at the type the peers encode on that channel
      ([uid, packet, opts] and [nsp, uid, muid, rooms] and [sids]); a field
      the handler tests for presence is an [option];
    - an operation is taken together with the bus reply to the command it
      issues, so its callback belongs to the same step;
    - [self.emit('error', err)] returns if the facade's user has registered
      a listener for ['error'] and throws otherwise (index.js registers
      none); which of the two holds is the section variable
      [error_listener], and an emit that throws ends the callback it is in;
    - [Number], which [adapter] applies to the port, is a builtin whose
      conversion is not written in index.js: it is a parameter of the
      factory's model;
    - keys are ordinary strings, not names of [Object.prototype] members. *)

From Stdlib Require Import ZArith Ascii String.
From stdpp Require Import gmap strings list.

Set Warnings "-clear-no-such-hyp".

Local Open Scope string_scope.
Local Open Scope list_scope.

Module Redis.

(** ** Strings and channel names *)

(** [s.split(sep)] for a one-character separator: the pieces between the
    separators, never an empty array. *)
Fixpoint split (sep : ascii) (s : string) : list string :=
  match s with
  | EmptyString => [EmptyString]
  | String c s' =>
      if Ascii.eqb c sep then EmptyString :: split sep s'
      else match split sep s' with
           | piece :: pieces => String c piece :: pieces
           | [] => [String c EmptyString]
           end
  end.

(** [arr.slice(-n)]: the last [n] elements, all of them when there are fewer. *)
Definition slice_neg {A} (n : nat) (arr : list A) : list A :=
  drop (length arr - n) arr.

(** [pieces.slice(-n)[0]]; [None] stands for [undefined]. *)
Definition slice_neg_first (n : nat) (pieces : list string) : option string :=
  head (slice_neg n pieces).

Definition hash : ascii := "#"%char.

(** String concatenation with a value that may be [undefined]. *)
Definition js_string (v : option string) : string := default "undefined" v.

(** ** Data *)

(** A packet: the recognised attribute [nsp] and the rest, opaque. *)
Record packet := Packet { nsp : option string; data : string }.

(** Broadcast options: [opts.rooms] may be absent; [except] and [flags] are only
    passed on. *)
Record options := Options { opt_rooms : option (list string); rest : string }.

(** What is encoded with the codec and published. *)
Inductive payload :=
| PBroadcast (sender : string) (p : packet) (o : options)
| PRequest (ns sender muid : string) (rs : list string)
| PResponse (ids : list string).

(** The arguments a completion callback [fn] is called with. *)
Inductive cbargs :=
| CbErr (err : string)            (* fn(err) *)
| CbNull                          (* fn(null) *)
| CbSids (ids : list string).     (* fn(null, sids) *)

(** The answer of a collaborator to a callback [(err, value)]. *)
Inductive reply (A : Type) :=
| Err (err : string)
| Ok (a : A).
Arguments Err {A} err.
Arguments Ok {A} a.

(** What the adapter does to its collaborators, in program order. *)
Inductive event :=
| EBaseBroadcast (p : packet) (o : options)  (* Adapter.prototype.broadcast.call *)
| EPublish (chn : string) (m : payload)      (* pub.publish *)
| ESubscribe (chn : string)                  (* sub.subscribe *)
| EUnsubscribe (chn : string)                (* sub.unsubscribe *)
| ENumsub (chn : string)                     (* pubsub.pubsub('NUMSUB', chn) *)
| ESetTimeout (delay : Z)                    (* setTimeout(finish, delay) *)
| EClearTimeout                              (* clearTimeout(handle) *)
| EOnMessage                                 (* sub.on('message', listener) *)
| ERemoveListener                            (* sub.removeListener('message', listener) *)
| EEmitError (err : string)                  (* self.emit('error', err) *)
| ECallback (a : cbargs).                    (* fn(...) *)

(** The publishes of a trace, with their channels. *)
Definition publishes (tr : list event) : list (string * payload) :=
  omap (λ e, match e with EPublish c m => Some (c, m) | _ => None end) tr.

(** The calls of the completion callback in a trace. *)
Definition callbacks (tr : list event) : list cbargs :=
  omap (λ e, match e with ECallback a => Some a | _ => None end) tr.

(** The calls of the base adapter's local broadcast in a trace. *)
Definition local_emits (tr : list event) : list (packet * options) :=
  omap (λ e, match e with EBaseBroadcast p o => Some (p, o) | _ => None end) tr.

(** ** [adapter(uri, opts)] *)

(** A port as an option gives it and as it is handed to [Number]: a string
    or a number. *)
Inductive port_value :=
| PortString (s : string)
| PortNumber (n : Z).

(** A bus client: one the caller supplied, or one made by
    [redis(port, host)] or [redis(port, host, { detect_buffers: true })].
    [number] is the type of what [Number] returns. *)
Inductive client (number : Type) :=
| Supplied (name : string)
| Created (port : number) (host : string) (detect_buffers : bool).
Arguments Supplied {number} name.
Arguments Created {number} port host detect_buffers.

(** The recognised options; a missing one is [None]. *)
Record adapter_options := AdapterOptions {
  opt_host : option string;
  opt_port : option port_value;
  opt_key : option string;
  opt_timeout : option Z;
  opt_pubClient : option string;
  opt_subClient : option string;
  opt_pubsubClient : option string
}.

(** The first argument of [adapter]: [undefined], [null], a string or an
    options object. *)
Inductive uri_argument :=
| UriUndefined
| UriNull
| UriString (s : string)
| UriObject (o : adapter_options).

(** What the closure of [adapter] holds. *)
Record config (number : Type) := Config {
  cfg_host : string;
  cfg_port : number;
  cfg_pub : client number;
  cfg_sub : client number;
  cfg_pubsub : client number;
  cfg_prefix : string;
  cfg_timeout : Z;
  cfg_uid : string
}.
Arguments Config {number}.
Arguments cfg_host {number}.
Arguments cfg_port {number}.
Arguments cfg_pub {number}.
Arguments cfg_sub {number}.
Arguments cfg_pubsub {number}.
Arguments cfg_prefix {number}.
Arguments cfg_timeout {number}.
Arguments cfg_uid {number}.

(** [v || fallback] for a string: the empty string is falsy. *)
Definition string_or (v : option string) (fallback : string) : string :=
  match v with
  | Some s => if decide (s = "") then fallback else s
  | None => fallback
  end.

(** [v || fallback] for a port: [""] and [0] are falsy. *)
Definition port_or (v : option port_value) (fallback : port_value) : port_value :=
  match v with
  | Some (PortString s) => if decide (s = "") then fallback else PortString s
  | Some (PortNumber n) => if decide (n = 0%Z) then fallback else PortNumber n
  | None => fallback
  end.

(** [v || fallback] for a number: [0] is falsy. *)
Definition number_or (v : option Z) (fallback : Z) : Z :=
  match v with
  | Some n => if decide (n = 0%Z) then fallback else n
  | None => fallback
  end.

(** [{}] *)
Definition no_options : adapter_options :=
  AdapterOptions None None None None None None None.

(** [opts.host = uri[0]; opts.port = uri[1]] for [uri = uri.split(':')]. *)
Definition with_uri (pieces : list string) (o : adapter_options) : adapter_options :=
  AdapterOptions (head pieces) (PortString <$> pieces !! 1%nat)
                 (opt_key o) (opt_timeout o)
                 (opt_pubClient o) (opt_subClient o) (opt_pubsubClient o).

Section Factory.

(** The builtin [Number], on what a port option can be.  Its conversion of
    strings is not part of index.js and is left open. *)
Variables (number : Type) (Number : port_value → number).

(** The part of [adapter] after the arguments are sorted out. *)
Definition configure (o : adapter_options) (uid : string) : config number :=
  let host := string_or (opt_host o) "127.0.0.1" in
  let port := Number (port_or (opt_port o) (PortNumber 6379)) in
  Config host port
         (match opt_pubClient o with
          | Some c => Supplied c | None => Created port host false end)
         (match opt_subClient o with
          | Some c => Supplied c | None => Created port host true end)
         (match opt_pubsubClient o with
          | Some c => Supplied c | None => Created port host false end)
         (string_or (opt_key o) "socket.io")
         (number_or (opt_timeout o) 50)
         uid.

(** [adapter(uri, opts)], [uid] being the value of [uid2(6)].  [None] is the
    TypeError of [opts.host] on [null]: [typeof null] is ['object'], so a
    [null] first argument replaces [opts]. *)
Definition adapter (uri : uri_argument) (opts : option adapter_options)
    (uid : string) : option (config number) :=
  let opts0 := default no_options opts in
  match uri with
  | UriNull => None
  | UriObject o => Some (configure o uid)
  | UriUndefined => Some (configure opts0 uid)
  | UriString s =>
      if decide (s = "") then Some (configure opts0 uid)
      else Some (configure (with_uri (split ":"%char s) opts0) uid)
  end.

End Factory.

(** Whether a string contains a character. *)
Fixpoint has_char (c : ascii) (s : string) : bool :=
  match s with
  | EmptyString => false
  | String c' s' => Ascii.eqb c' c || has_char c s'
  end.


Section Adapter.

(** [prefix], [uid] and [timeout] of the closure; [this.nsp.name]. *)
Variables (prefix uid nsp_name : string) (timeout : Z).

(** Whether the user of the facade has registered a listener for ['error'];
    index.js registers none.  Without one [self.emit('error', err)] throws,
    inside the callback the bus client runs, and that callback ends there. *)
Variable error_listener : bool.

(** [prefix + '#' + n + '#'] *)
Definition nsp_channel (n : string) : string :=
  prefix +:+ "#" +:+ n +:+ "#".

(** [prefix + '#' + n + '#' + room + '#'] *)
Definition room_channel (n room : string) : string :=
  prefix +:+ "#" +:+ n +:+ "#" +:+ room +:+ "#".

(** [prefix + '#clientrequest'] *)
Definition request_channel : string := prefix +:+ "#clientrequest".

(** [prefix + '#' + muid + '#clientresponse'] *)
Definition response_channel (muid : string) : string :=
  prefix +:+ "#" +:+ muid +:+ "#clientresponse".

(** ** [Redis.prototype.broadcast] *)

(** [remote] is the truth value of the third argument.  [if (opts.rooms)]
    tests presence: an array, empty or not, is truthy. *)
Definition broadcast (p : packet) (opts : options) (remote : bool) : list event :=
  EBaseBroadcast p opts ::
  if remote then []
  else match opt_rooms opts with
       | Some rs =>
           map (λ room, EPublish (room_channel (js_string (nsp p)) room)
                                 (PBroadcast uid p opts)) rs
       | None =>
           [EPublish (nsp_channel (js_string (nsp p))) (PBroadcast uid p opts)]
       end.

(** ** [Redis.prototype.onmessage] *)

(** A decoded message, at the shape the peers publish: [uid, packet, opts]
    on a namespace or room channel, [nsp, uid, muid, rooms] on the request
    channel.  A [null] packet is [None]. *)
Inductive message :=
| MBroadcast (sender : string) (p : option packet) (o : options)
| MRequest (ns sender muid : string) (rs : list string).

(** How the handler ends: a [return debug(...)], or the call it makes with
    [apply].  [OutsideFormat] is a payload that has not the shape of its
    channel; the model says nothing about it. *)
Inductive call :=
| Ignore (why : string)
| CallBroadcast (p : packet) (o : options) (remote : bool)
| CallClients (rs : list string) (fn : bool) (channel : option string) (remote : bool)
| OutsideFormat.

(** [pieces.slice(-1)[0] == "clientrequest"] *)
Definition is_request_channel (channel : string) : bool :=
  bool_decide (slice_neg_first 1 (split hash channel) = Some "clientrequest").

(** [if (packet && packet.nsp === undefined) packet.nsp = '/'] *)
Definition default_nsp (p : packet) : packet :=
  match nsp p with
  | None => Packet (Some "/") (data p)
  | Some _ => p
  end.

Definition onmessage (channel : string) (msg : message) : call :=
  if is_request_channel channel then
    match msg with
    | MRequest ns sender muid rs =>
        if bool_decide (nsp_name ≠ ns) then Ignore "ignore different namespace"
        else if bool_decide (uid = sender) then Ignore "ignore same uid"
        else
          (* args is [muid, rooms]; the shift inside the arguments of push
             runs first, so args becomes [rooms, null, channel, true] *)
          CallClients rs false (Some (prefix +:+ "#" +:+ muid +:+ "#clientresponse")) true
    | MBroadcast _ _ _ => OutsideFormat
    end
  else
    match msg with
    | MBroadcast sender p o =>
        if bool_decide (uid = sender) then Ignore "ignore same uid"
        else
          match default_nsp <$> p with
          | None => Ignore "ignore different namespace"
          | Some pk =>
              if bool_decide (nsp pk ≠ Some nsp_name)
              then Ignore "ignore different namespace"
              else CallBroadcast pk o true
          end
    | MRequest _ _ _ _ => OutsideFormat
    end.

(** The field at index 0 of the decoded array, and the field that carries
    the sender's UID. *)
Definition leading_field (msg : message) : string :=
  match msg with
  | MBroadcast sender _ _ => sender
  | MRequest ns _ _ _ => ns
  end.

Definition uid_field (msg : message) : string :=
  match msg with
  | MBroadcast sender _ _ => sender
  | MRequest _ sender _ _ => sender
  end.

(** The payload has the shape of the channel it arrives on. *)
Definition well_shaped (channel : string) (msg : message) : Prop :=
  match msg with
  | MRequest _ _ _ _ => is_request_channel channel = true
  | MBroadcast _ _ _ => is_request_channel channel = false
  end.

(** ** [Redis.prototype.clients] *)

(** The closure of an outstanding fleet query: [muid], [remaining], the
    array [sids] that accumulates, whether [fn] was given, and whether the
    listener is registered and the timer armed ([finish] undoes both). *)
Record query := Query {
  q_muid : string;
  remaining : Z;
  acc : list string;
  q_fn : bool;
  pending : bool
}.

(** [clients(rooms, fn, channel, remote)].  [local] is what the base
    adapter's [clients] passes to its callback ([None] for a missing list),
    [numsub] the count at the end of the NUMSUB reply, [suberr] the reply to
    the subscribe of the response channel, [muid] the value of [uid2(6)].
    The query record is returned when the request has been published. *)
Definition clients (rs : list string) (fn : bool) (channel : option string)
    (remote : bool) (local : reply (option (list string)))
    (numsub : reply Z) (suberr : option string) (muid : string)
  : option query * list event :=
  match local with
  | Err err => (None, if fn then [ECallback (CbErr err)] else [])
  | Ok ids0 =>
      let ids := default [] ids0 in
      if remote then (None, [EPublish (js_string channel) (PResponse ids)])
      else
        match numsub with
        | Err err =>
            (None, ENumsub request_channel ::
                   if fn then [ECallback (CbErr err)] else [])
        | Ok subs =>
            let remaining := (subs - 1)%Z in
            (Some (Query muid remaining ids fn true),
             ([ENumsub request_channel;
               ESetTimeout (timeout * remaining);
               ESubscribe (response_channel muid)]
              ++ match suberr with Some err => [EEmitError err] | None => [] end
              ++ [EOnMessage;
                  EPublish request_channel (PRequest nsp_name uid muid rs)])%list)
        end
  end.

(** ** The membership index and the subscriber client *)

(** [this.sids], [this.rooms], and the channels the subscriber client is
    subscribed to at the bus (SUBSCRIBE and UNSUBSCRIBE act on a set). *)
Record state := State {
  sids : gmap string (gset string);
  rooms : gmap string (gset string);
  subscribed : gset string
}.

(** An operation's result: the state it leaves, what it did, and the
    exception it threw, if any. *)
Record outcome := Outcome {
  final : state;
  trace : list event;
  thrown : option string
}.

(** [obj[key] || {}] *)
Definition or_empty (obj : gmap string (gset string)) (key : string) : gset string :=
  default ∅ (obj !! key).

(** The callback given to subscribe and unsubscribe by [add] and [del]:
    [self.emit('error', err); if (fn) fn(err); return;] on an error, where
    [fn(err)] is reached only if the emit returns, and [if (fn) fn(null)]
    otherwise. *)
Definition report (fn : bool) (err : option string) : list event :=
  match err with
  | Some e =>
      EEmitError e ::
      if error_listener then (if fn then [ECallback (CbErr e)] else []) else []
  | None => if fn then [ECallback CbNull] else []
  end.

(** The bus after a command it answered with [err]. *)
Definition after_subscribe (err : option string) (channel : string)
    (subs : gset string) : gset string :=
  if err is None then {[channel]} ∪ subs else subs.

Definition after_unsubscribe (err : option string) (channel : string)
    (subs : gset string) : gset string :=
  if err is None then subs ∖ {[channel]} else subs.

(** ** [Redis.prototype.add] *)

Definition add (id room : string) (fn : bool) (err : option string)
    (st : state) : outcome :=
  let sids1 := <[id := or_empty (sids st) id]> (sids st) in
  let sids2 := <[id := {[room]} ∪ or_empty sids1 id]> sids1 in
  let rooms1 := <[room := or_empty (rooms st) room]> (rooms st) in
  let rooms2 := <[room := {[id]} ∪ or_empty rooms1 room]> rooms1 in
  let channel := room_channel nsp_name room in
  Outcome (State sids2 rooms2 (after_subscribe err channel (subscribed st)))
          (ESubscribe channel :: report fn err)
          None.

(** ** [Redis.prototype.del] *)

Definition del (id room : string) (fn : bool) (err : option string)
    (st : state) : outcome :=
  let sids1 := <[id := or_empty (sids st) id]> (sids st) in
  let rooms1 := <[room := or_empty (rooms st) room]> (rooms st) in
  let sids2 := <[id := or_empty sids1 id ∖ {[room]}]> sids1 in
  let rooms2 := <[room := or_empty rooms1 room ∖ {[id]}]> rooms1 in
  if bool_decide (is_Some (rooms2 !! room))
     && bool_decide (or_empty rooms2 room = ∅)
  then
    let channel := room_channel nsp_name room in
    Outcome (State sids2 (delete room rooms2)
                   (after_unsubscribe err channel (subscribed st)))
            (EUnsubscribe channel :: report fn err)
            None
  else
    Outcome (State sids2 rooms2 (subscribed st))
            (if fn then [ECallback CbNull] else [])
            None.

(** ** [Redis.prototype.delAll] *)

(** How an iterator of [async.forEach] ends: it never calls [next], or it
    calls [next(err)] ([next()] is [Next None]). *)
Inductive completion :=
| NoNext
| Next (err : option string).

(** The iterator for one room.  [own] is the object [rooms = this.sids[id]],
    [err] the reply to this room's unsubscribe.  [None] is the TypeError of
    [delete self.rooms[room][id]] on a missing [self.rooms[room]]. *)
Definition delAll_iterator (id : string) (own : gset string)
    (err : string → option string) (room : string) (st : state)
  : option (state * list event * completion) :=
  st1 ← (if bool_decide (room ∈ own) then
           members ← rooms st !! room;
           Some (State (sids st) (<[room := members ∖ {[id]}]> (rooms st))
                       (subscribed st))
         else Some st);
  if bool_decide (is_Some (rooms st1 !! room))
     && bool_decide (or_empty (rooms st1) room = ∅)
  then
    let channel := room_channel nsp_name room in
    Some (State (sids st1) (delete room (rooms st1))
                (after_unsubscribe (err channel) channel (subscribed st1)),
          EUnsubscribe channel ::
            match err channel with Some e => [EEmitError e] | None => [] end,
          match err channel with Some _ => NoNext | None => Next None end)
  else Some (st1, [], Next None).

(** The iterators of [async.forEach], started one after the other; an
    exception stops the loop.  The boolean tells whether one was thrown. *)
Fixpoint forEach (iterator : string → state → option (state * list event * completion))
    (keys : list string) (st : state)
  : state * list event * list completion * bool :=
  match keys with
  | [] => (st, [], [], false)
  | key :: keys' =>
      match iterator key st with
      | None => (st, [], [], true)
      | Some (st1, tr1, c) =>
          let '(st2, tr2, cs, exn) := forEach iterator keys' st1 in
          (st2, (tr1 ++ tr2)%list, c :: cs, exn)
      end
  end.

(** The error of the first [next(err)], if any. *)
Fixpoint first_error (cs : list completion) : option string :=
  match cs with
  | [] => None
  | Next (Some e) :: _ => Some e
  | _ :: cs' => first_error cs'
  end.

Definition called_next (c : completion) : bool :=
  match c with Next _ => true | NoNext => false end.

(** Whether [async.forEach] calls its final callback, and with what: with
    the first error passed to [next], or with nothing once every iterator
    has called [next]. *)
Definition forEach_final (cs : list completion) : option (option string) :=
  match first_error cs with
  | Some e => Some (Some e)
  | None => if forallb called_next cs then Some None else None
  end.

(** [Object.keys(rooms)] is [elements own]: the keys in some fixed order
    (the properties below do not depend on which). *)
Definition delAll (id : string) (fn : bool) (err : string → option string)
    (st : state) : outcome :=
  match sids st !! id with
  | None =>
      (* process.nextTick(fn.bind(null, null)) *)
      if fn then Outcome st [ECallback CbNull] None
      else Outcome st [] (Some "TypeError")
  | Some own =>
      let '(st1, tr1, cs, exn) :=
        forEach (delAll_iterator id own err) (elements own) st in
      if exn then Outcome st1 tr1 (Some "TypeError")
      else
        match forEach_final cs with
        | None => Outcome st1 tr1 None
        | Some (Some e) =>
            Outcome st1 (tr1 ++ report fn (Some e))%list None
        | Some None =>
            Outcome (State (delete id (sids st1)) (rooms st1) (subscribed st1))
                    (tr1 ++ if fn then [ECallback CbNull] else [])%list
                    None
        end
  end.

(** ** The outstanding fleet query *)

(** [finish()] *)
Definition finish (q : query) : query * list event :=
  (Query (q_muid q) (remaining q) (acc q) (q_fn q) false,
   ([ERemoveListener; EClearTimeout]
    ++ if q_fn q then [ECallback (CbSids (acc q))] else [])%list).

(** [onclientresponsemessage(channel, message)], [ids] being [response[0]]. *)
Definition onclientresponsemessage (q : query) (channel : string)
    (ids : list string) : query * list event :=
  let pieces := split hash channel in
  if bool_decide (slice_neg_first 1 pieces ≠ Some "clientresponse") then (q, [])
  else if bool_decide (slice_neg_first 2 pieces ≠ Some (q_muid q)) then (q, [])
  else
    let q' := Query (q_muid q) (remaining q - 1) (acc q ++ ids)%list (q_fn q) (pending q) in
    (* --remaining || finish() *)
    if bool_decide (remaining q' = 0%Z) then finish q' else (q', []).

(** What reaches the query after the request: a message on the subscriber
    client, or the timer firing. *)
Inductive qevent :=
| QMessage (channel : string) (ids : list string)
| QTimeout.

(** One delivery.  A removed listener receives nothing and a cleared timer
    does not fire. *)
Definition deliver (q : query) (ev : qevent) : query * list event :=
  if pending q then
    match ev with
    | QMessage channel ids => onclientresponsemessage q channel ids
    | QTimeout => finish q
    end
  else (q, []).

Fixpoint run (q : query) (evs : list qevent) : query * list event :=
  match evs with
  | [] => (q, [])
  | ev :: evs' =>
      let '(q1, tr1) := deliver q ev in
      let '(q2, tr2) := run q1 evs' in
      (q2, (tr1 ++ tr2)%list)
  end.

(** ** The handler with the call it ends in *)

(** The trace of [onmessage]: that of the method it applies.  The remaining
    arguments are the collaborators' answers to [clients]. *)
Definition handle (channel : string) (msg : message)
    (local : reply (option (list string))) (numsub : reply Z)
    (suberr : option string) (muid : string) : option (list event) :=
  match onmessage channel msg with
  | Ignore _ => Some []
  | CallBroadcast p o remote => Some (broadcast p o remote)
  | CallClients rs fn chn remote =>
      Some (snd (clients rs fn chn remote local numsub suberr muid))
  | OutsideFormat => None
  end.

(** ** Reachable states *)

(** The constructor: empty maps, the namespace channel and the request
    channel subscribed. *)
Definition construct : state :=
  State ∅ ∅ {[nsp_channel nsp_name; request_channel]}.

Inductive operation :=
| Add (id room : string) (fn : bool)
| Del (id room : string) (fn : bool)
| DelAll (id : string) (fn : bool).

(** An operation on a bus that carries out every command. *)
Definition exec (op : operation) (st : state) : outcome :=
  match op with
  | Add id room fn => add id room fn None st
  | Del id room fn => del id room fn None st
  | DelAll id fn => delAll id fn (λ _, None) st
  end.

Inductive reachable : state → Prop :=
| reachable_construct : reachable construct
| reachable_exec op st : reachable st → reachable (final (exec op st)).



(** [id] is a member of [room]. *)
Definition member (st : state) (id room : string) : Prop :=
  ∃ members, rooms st !! room = Some members ∧ id ∈ members.

(** ** Well-formed states *)

(** What every reachable state satisfies: the two maps describe the same
    membership, no room is stored empty, and a room's channel is subscribed
    exactly if the room is stored. *)
Definition consistent (st : state) : Prop :=
  (∀ id room, room ∈ or_empty (sids st) id ↔ id ∈ or_empty (rooms st) room)
  ∧ (∀ room, rooms st !! room ≠ Some ∅)
  ∧ (∀ room, room_channel nsp_name room ∈ subscribed st ↔ is_Some (rooms st !! room)).

(** Inside the loop of [delAll]: [id] is still in the rooms of [todo] and in
    no other. *)
Definition loop_inv (id : string) (todo : list string) (st : state) : Prop :=
  (∀ s room, s ≠ id → room ∈ or_empty (sids st) s ↔ s ∈ or_empty (rooms st) room)
  ∧ (∀ room, id ∈ or_empty (rooms st) room ↔ room ∈ todo)
  ∧ (∀ room, rooms st !! room ≠ Some ∅)
  ∧ (∀ room, room_channel nsp_name room ∈ subscribed st ↔ is_Some (rooms st !! room)).

(** Whether a string contains the separator. *)
Fixpoint has_hash (s : string) : bool :=
  match s with
  | EmptyString => false
  | String c s' => Ascii.eqb c hash || has_hash s'
  end.




(** ** The query, as the specification words it *)

(** The listener's test on the channel: last piece ["clientresponse"], the
    one before it the query's [muid]. *)
Definition is_response_for (muid channel : string) : bool :=
  bool_decide (slice_neg_first 1 (split hash channel) = Some "clientresponse")
  && bool_decide (slice_neg_first 2 (split hash channel) = Some muid).

(** The peer response lists among the deliveries, in arrival order. *)
Definition responses (muid : string) (evs : list qevent) : list (list string) :=
  omap (λ ev, match ev with
              | QMessage channel ids =>
                  if is_response_for muid channel then Some ids else None
              | QTimeout => None
              end) evs.

(** The deliveries bring the query to its end: the timer has fired, or the
    expected number of responses, if positive, has arrived. *)
Definition completes (expected : Z) (muid : string) (evs : list qevent) : Prop :=
  QTimeout ∈ evs ∨ (0 < expected ≤ Z.of_nat (length (responses muid evs)))%Z.


#[global] Instance qevent_eq_dec : EqDecision qevent.
Proof. solve_decision. Defined.

#[global] Instance completes_dec (expected : Z) (muid : string) (evs : list qevent) :
  Decision (completes expected muid evs).
Proof. unfold completes. apply _. Defined.


(** ** The constructor and delivery between nodes *)

(** [Redis(nsp)]: the base constructor leaves both maps empty; the two
    subscribes with the replies [err1] and [err2] of the bus, then the
    registration of the handler. *)
Definition Redis_new (err1 err2 : option string) : outcome :=
  Outcome (State ∅ ∅
             (after_subscribe err2 request_channel
                (after_subscribe err1 (nsp_channel nsp_name) ∅)))
          ([ESubscribe (nsp_channel nsp_name)]
           ++ match err1 with Some e => [EEmitError e] | None => [] end
           ++ [ESubscribe request_channel]
           ++ match err2 with Some e => [EEmitError e] | None => [] end
           ++ [EOnMessage])
          None.

(** The codec: what a peer encoded is what the handler decodes.  A response
    is not for the handler but for the listener of a query. *)
Definition decode (m : payload) : option message :=
  match m with
  | PBroadcast sender p o => Some (MBroadcast sender (Some p) o)
  | PRequest ns sender muid rs => Some (MRequest ns sender muid rs)
  | PResponse _ => None
  end.

(** A publish reaching this node: the bus delivers it if the subscriber
    client is subscribed to its channel, and the handler runs on it. *)
Definition receive (st : state) (pub : string * payload)
    (local : reply (option (list string))) (numsub : reply Z)
    (suberr : option string) (muid : string) : option (list event) :=
  if decide (pub.1 ∈ subscribed st) then
    msg ← decode pub.2; handle pub.1 msg local numsub suberr muid
  else Some [].

(** The bus commands of a trace. *)
Definition is_command (e : event) : bool :=
  match e with
  | EPublish _ _ | ESubscribe _ | EUnsubscribe _ | ENumsub _ => true
  | _ => false
  end.


(** ** Sequences of calls *)

(** [del(id, room)] for each of [ids] in turn, on a working bus. *)
Definition leave_all (ids : list string) (room : string) (st : state) : state :=
  foldl (λ st id, final (del id room false None st)) st ids.



(** ** Example states *)

(** One SID in one room of the namespace ["/"], prefix ["socket.io"]. *)
Definition one_member : state :=
  State {["s" := {["r"]}]} {["r" := {["s"]}]} {["socket.io#/#r#"]}.

(** One SID in two rooms. *)
Definition two_rooms : state :=
  State {["s" := {["r"; "q"]}]} {["r" := {["s"]}; "q" := {["s"]}]}
        {["socket.io#/#r#"; "socket.io#/#q#"]}.


(** The state of the facade of ["/"] with prefix ["socket.io"] after
    [add("s", "r")] on a working bus. *)
Definition joined : state :=
  State {["s" := {["r"]}]} {["r" := {["s"]}]}
        {["socket.io#/#r#"; "socket.io#/#"; "socket.io#clientrequest"]}.


(** * Properties *)

(** ** broadcast *)

Lemma publishes_app (tr1 tr2 : list event) :
  publishes (tr1 ++ tr2) = publishes tr1 ++ publishes tr2.
Proof. apply omap_app. Qed.

Lemma callbacks_app (tr1 tr2 : list event) :
  callbacks (tr1 ++ tr2) = callbacks tr1 ++ callbacks tr2.
Proof. apply omap_app. Qed.

(** With [opts.rooms] absent, one publish, to the namespace channel. *)
Lemma broadcast_absent_rooms (p : packet) (r : string) :
  publishes (broadcast p (Options None r) false)
  = [(nsp_channel (js_string (nsp p)), PBroadcast uid p (Options None r))].
Proof. reflexivity. Qed.

(** With [opts.rooms] present, one publish per listed room, in order, each
    to the room channel. *)
Lemma broadcast_listed_rooms (p : packet) (rs : list string) (r : string) :
  publishes (broadcast p (Options (Some rs) r) false)
  = map (λ room, (room_channel (js_string (nsp p)) room,
                  PBroadcast uid p (Options (Some rs) r))) rs.
Proof.
  unfold broadcast; cbn. generalize (Options (Some rs) r) as opts. intros opts.
  induction rs as [|room rs' IH]; [reflexivity|].
  cbn. f_equal. apply IH.
Qed.

(** C1, at the input where it fails: a broadcast that is not remote and
    whose [opts.rooms] is the empty array publishes nothing, the namespace
    channel included; only the local emit happens. *)
Theorem broadcast_empty_rooms_publishes_nothing (p : packet) (r : string) :
  broadcast p (Options (Some []) r) false = [EBaseBroadcast p (Options (Some []) r)]
  ∧ publishes (broadcast p (Options (Some []) r) false) = [].
Proof. split; reflexivity. Qed.

(** C2: a remote broadcast calls the base adapter's broadcast with
    [(packet, opts)] and does nothing else; nothing is published. *)
Theorem broadcast_remote_only_local (p : packet) (opts : options) :
  broadcast p opts true = [EBaseBroadcast p opts]
  ∧ local_emits (broadcast p opts true) = [(p, opts)]
  ∧ publishes (broadcast p opts true) = [].
Proof. repeat split. Qed.

(** ** onmessage *)

(** C3: a message whose field at index 0 is the node's UID ends in a
    [return debug(...)], neither [broadcast] nor [clients] is applied and the
    handler's trace is empty.  On the request channel index 0 holds the
    namespace, which is not a UID, and the UID is at index 1: a request
    carrying the node's UID there is ignored too. *)
Theorem onmessage_own_uid_ignored (channel : string) (msg : message)
    (local : reply (option (list string))) (numsub : reply Z)
    (suberr : option string) (muid : string) :
  well_shaped channel msg →
  nsp_name ≠ uid →
  leading_field msg = uid ∨ uid_field msg = uid →
  (∃ why, onmessage channel msg = Ignore why)
  ∧ handle channel msg local numsub suberr muid = Some [].
Proof.
  intros Hshape Hnsp Hfield.
  assert (∃ why, onmessage channel msg = Ignore why) as [why Hwhy].
  { unfold onmessage. destruct msg as [sender p o|ns sender m rs]; cbn in *.
    - rewrite Hshape.
      assert (sender = uid) as -> by (destruct Hfield; done).
      rewrite bool_decide_eq_true_2 by done. eauto.
    - rewrite Hshape. destruct Hfield as [->| ->].
      + rewrite bool_decide_eq_true_2 by done. eauto.
      + case_bool_decide; [eauto|].
        rewrite bool_decide_eq_true_2 by done. eauto. }
  split; [eauto|]. unfold handle. by rewrite Hwhy.
Qed.

(** C5: a broadcast message from another node.  A packet without [nsp] gets
    [nsp = "/"]; if the packet's [nsp] is then not the facade's namespace the
    handler returns and its trace is empty, so nothing is emitted locally;
    otherwise [broadcast] is applied to the packet, the options and [true],
    which emits locally and publishes nothing. *)
Theorem onmessage_broadcast_dispatch (channel sender : string) (p : packet)
    (o : options) (local : reply (option (list string))) (numsub : reply Z)
    (suberr : option string) (muid : string) :
  is_request_channel channel = false →
  uid ≠ sender →
  let pk := default_nsp p in
  nsp pk = Some (default "/" (nsp p)) ∧ data pk = data p
  ∧ (nsp pk ≠ Some nsp_name →
       (∃ why, onmessage channel (MBroadcast sender (Some p) o) = Ignore why)
       ∧ handle channel (MBroadcast sender (Some p) o) local numsub suberr muid
         = Some [])
  ∧ (nsp pk = Some nsp_name →
       onmessage channel (MBroadcast sender (Some p) o) = CallBroadcast pk o true
       ∧ handle channel (MBroadcast sender (Some p) o) local numsub suberr muid
         = Some [EBaseBroadcast pk o]).
Proof.
  intros Hchan Hsender pk.
  assert (nsp pk = Some (default "/" (nsp p)) ∧ data pk = data p) as [Hn Hd].
  { subst pk. unfold default_nsp. destruct p as [[n|] d]; done. }
  split; [done|]. split; [done|].
  unfold handle, onmessage. rewrite Hchan.
  rewrite bool_decide_eq_false_2 by done. cbn. fold pk.
  split; intros Hpk.
  - rewrite bool_decide_eq_true_2 by done. eauto.
  - rewrite bool_decide_eq_false_2 by (intros H; done). done.
Qed.

(** A [null] packet is ignored as well. *)
Lemma onmessage_null_packet (channel sender : string) (o : options) :
  is_request_channel channel = false →
  ∃ why, onmessage channel (MBroadcast sender None o) = Ignore why.
Proof.
  intros Hchan. unfold onmessage. rewrite Hchan.
  case_bool_decide; cbn; eauto.
Qed.

(** ** The clients responder *)

(** An accepted request is answered through [clients] with no callback, the
    response channel of the request's [muid] and [remote = true]. *)
Lemma onmessage_request_accepted (channel sender muid : string) (rs : list string) :
  is_request_channel channel = true →
  uid ≠ sender →
  onmessage channel (MRequest nsp_name sender muid rs)
  = CallClients rs false (Some (response_channel muid)) true.
Proof.
  intros Hchan Hsender. unfold onmessage. rewrite Hchan.
  rewrite bool_decide_eq_false_2 by (intros H; done).
  by rewrite bool_decide_eq_false_2.
Qed.

(** C8, amended: an accepted request whose local lookup succeeds is answered
    by one publish of the local list (the empty list for a missing one) to
    the response channel of the request's [muid], and by nothing else: no
    NUMSUB, no timer, no subscription.  When the lookup fails the handler
    does nothing at all. *)
Theorem responder_publishes_once (channel sender muid : string)
    (rs : list string) (numsub : reply Z) (suberr : option string) (m : string) :
  is_request_channel channel = true →
  uid ≠ sender →
  (∀ ids, handle channel (MRequest nsp_name sender muid rs) (Ok ids) numsub suberr m
          = Some [EPublish (response_channel muid) (PResponse (default [] ids))])
  ∧ (∀ err, handle channel (MRequest nsp_name sender muid rs) (Err err) numsub suberr m
            = Some []).
Proof.
  intros Hchan Hsender. unfold handle.
  rewrite onmessage_request_accepted by done.
  split; intros; reflexivity.
Qed.

(** ** delAll without a callback *)

(** C10: when [sids[id]] is missing and no callback is given, [delAll]
    throws a TypeError and changes nothing; with a callback the same call
    completes with [fn(null)]. *)
Theorem delAll_missing_callback_throws (id : string)
    (err : string → option string) (st : state) :
  sids st !! id = None →
  delAll id false err st = Outcome st [] (Some "TypeError")
  ∧ delAll id true err st = Outcome st [ECallback CbNull] None.
Proof. intros Hid. unfold delAll. rewrite Hid. done. Qed.


(** ** add and del, in closed form *)

Lemma or_empty_insert (obj : gmap string (gset string)) (key : string) (v : gset string) :
  or_empty (<[key := v]> obj) key = v.
Proof. unfold or_empty. by rewrite lookup_insert_eq. Qed.

Lemma or_empty_insert_ne (obj : gmap string (gset string)) (key key' : string)
    (v : gset string) :
  key ≠ key' → or_empty (<[key := v]> obj) key' = or_empty obj key'.
Proof. intros. unfold or_empty. by rewrite lookup_insert_ne. Qed.

Lemma add_final (id room : string) (fn : bool) (err : option string) (st : state) :
  final (add id room fn err st)
  = State (<[id := {[room]} ∪ or_empty (sids st) id]> (sids st))
          (<[room := {[id]} ∪ or_empty (rooms st) room]> (rooms st))
          (after_subscribe err (room_channel nsp_name room) (subscribed st)).
Proof.
  unfold add; cbn. by rewrite !or_empty_insert, !insert_insert_eq.
Qed.

(** [del] removes the room when nobody but [id] was in it, present or not. *)
Lemma del_final (id room : string) (fn : bool) (err : option string) (st : state) :
  final (del id room fn err st)
  = if decide (or_empty (rooms st) room ∖ {[id]} = ∅)
    then State (<[id := or_empty (sids st) id ∖ {[room]}]> (sids st))
               (delete room (rooms st))
               (after_unsubscribe err (room_channel nsp_name room) (subscribed st))
    else State (<[id := or_empty (sids st) id ∖ {[room]}]> (sids st))
               (<[room := or_empty (rooms st) room ∖ {[id]}]> (rooms st))
               (subscribed st).
Proof.
  unfold del. rewrite !or_empty_insert, !insert_insert_eq, lookup_insert_eq.
  rewrite bool_decide_eq_true_2 by eauto. cbn.
  case_bool_decide as Hempty; case_decide; try done; cbn.
  by rewrite delete_insert_eq.
Qed.




(** ** add followed by del *)

(** C6, amended: when [id] is not in [room] beforehand, the room has no
    empty entry and its channel is subscribed exactly if the room exists,
    [add] followed by [del] (the bus carrying out both commands) gives back
    the [rooms] map and the subscriptions, and the [sids] map up to the
    entry of [id], which is left as an empty set where it was missing. *)
Theorem add_del_restores (id room : string) (fn1 fn2 : bool) (st : state) :
  id ∉ or_empty (rooms st) room →
  room ∉ or_empty (sids st) id →
  rooms st !! room ≠ Some ∅ →
  (room_channel nsp_name room ∈ subscribed st ↔ is_Some (rooms st !! room)) →
  let st' := final (del id room fn2 None (final (add id room fn1 None st))) in
  rooms st' = rooms st
  ∧ subscribed st' = subscribed st
  ∧ sids st' = <[id := or_empty (sids st) id]> (sids st)
  ∧ (is_Some (sids st !! id) → sids st' = sids st).
Proof.
  intros Hid Hroom Hne Hsub st'. subst st'.
  rewrite del_final, add_final; cbn.
  rewrite !or_empty_insert, !insert_insert_eq, delete_insert_eq.
  replace (({[room]} ∪ or_empty (sids st) id) ∖ {[room]})
    with (or_empty (sids st) id) by set_solver.
  replace (({[id]} ∪ or_empty (rooms st) room) ∖ {[id]})
    with (or_empty (rooms st) room) by set_solver.
  assert (is_Some (sids st !! id) →
          <[id := or_empty (sids st) id]> (sids st) = sids st) as Hsids.
  { intros [own Hown]. apply insert_id. unfold or_empty. by rewrite Hown. }
  unfold or_empty in *.
  destruct (rooms st !! room) as [members|] eqn:Hlook; cbn in *.
  - assert (members ≠ ∅) by congruence.
    rewrite decide_False by done. cbn.
    split; [by apply insert_id|]. split; [|done].
    assert (room_channel nsp_name room ∈ subscribed st) by (apply Hsub; eauto).
    set_solver.
  - rewrite decide_True by done. cbn.
    split; [by apply delete_id|]. split; [|done].
    assert (room_channel nsp_name room ∉ subscribed st).
    { intros Hin. apply Hsub in Hin. by destruct Hin. }
    set_solver.
Qed.

(** ** Channel names *)

Lemma has_hash_app (a b : string) : has_hash (a +:+ b) = has_hash a || has_hash b.
Proof.
  induction a as [|c a IH]; [done|].
  change (has_hash (String c (a +:+ b)) = has_hash (String c a) || has_hash b).
  cbn [has_hash]. rewrite IH. by rewrite orb_assoc.
Qed.

Lemma has_hash_sep (a b : string) : has_hash (a +:+ String hash b) = true.
Proof. rewrite has_hash_app. cbn. apply orb_true_r. Qed.

Lemma append_hash_inj (a b : string) : a +:+ "#" = b +:+ "#" → a = b.
Proof.
  revert b. induction a as [|c a IH]; intros [|d b] Heq; cbn in Heq.
  - done.
  - injection Heq as _ Heq. by destruct b.
  - injection Heq as _ Heq. by destruct a.
  - injection Heq as -> Heq. f_equal. by apply IH.
Qed.

Lemma room_channel_inj (n room1 room2 : string) :
  room_channel n room1 = room_channel n room2 → room1 = room2.
Proof.
  unfold room_channel. intros Heq.
  apply (inj (String.append prefix)) in Heq. cbn in Heq. injection Heq as Heq.
  apply (inj (String.append n)) in Heq. cbn in Heq. injection Heq as Heq.
  by apply append_hash_inj.
Qed.

Lemma room_channel_not_nsp_channel (n room : string) :
  room_channel n room ≠ nsp_channel n.
Proof.
  unfold room_channel, nsp_channel. intros Heq.
  apply (inj (String.append prefix)) in Heq. cbn in Heq. injection Heq as Heq.
  apply (inj (String.append n)) in Heq. cbn in Heq. injection Heq as Heq.
  by destruct room.
Qed.

Lemma room_channel_not_request_channel (n room : string) :
  room_channel n room ≠ request_channel.
Proof.
  unfold room_channel, request_channel. intros Heq.
  apply (inj (String.append prefix)) in Heq. cbn in Heq. injection Heq as Heq.
  assert (has_hash "clientrequest" = true) as Hreq; [|discriminate Hreq].
  etransitivity; [symmetry; exact (f_equal has_hash Heq)|].
  exact (has_hash_sep n (room +:+ "#")).
Qed.

(** ** The invariant *)

Lemma or_empty_delete (obj : gmap string (gset string)) (key : string) :
  or_empty (delete key obj) key = ∅.
Proof. unfold or_empty. by rewrite lookup_delete_eq. Qed.

Lemma or_empty_delete_ne (obj : gmap string (gset string)) (key key' : string) :
  key ≠ key' → or_empty (delete key obj) key' = or_empty obj key'.
Proof. intros. unfold or_empty. by rewrite lookup_delete_ne. Qed.

Lemma or_empty_Some (obj : gmap string (gset string)) (key : string) (v : gset string) :
  obj !! key = Some v → or_empty obj key = v.
Proof. intros H. unfold or_empty. by rewrite H. Qed.

Lemma or_empty_elem (obj : gmap string (gset string)) (key x : string) :
  x ∈ or_empty obj key ↔ ∃ v, obj !! key = Some v ∧ x ∈ v.
Proof.
  unfold or_empty. destruct (obj !! key) as [v|]; cbn.
  - split; [eauto|]. by intros (? & [= <-] & ?).
  - split; [set_solver|]. by intros (? & ? & ?).
Qed.

(** Rewrites the lookups of a key against an updated map. *)
Ltac split_key s id :=
  destruct (decide (s = id)) as [->|];
  rewrite ?or_empty_insert, ?or_empty_delete, ?lookup_insert_eq, ?lookup_delete_eq;
  rewrite ?or_empty_insert_ne, ?or_empty_delete_ne, ?lookup_insert_ne,
    ?lookup_delete_ne by done.

Lemma construct_consistent : consistent construct.
Proof.
  split; [|split]; cbn.
  - intros id room. unfold or_empty. rewrite !lookup_empty. cbn. set_solver.
  - intros room. by rewrite lookup_empty.
  - intros room. rewrite lookup_empty. split; [|by intros []].
    intros Hin. apply elem_of_union in Hin as [Hin|Hin];
      apply elem_of_singleton in Hin.
    + by apply room_channel_not_nsp_channel in Hin.
    + by apply room_channel_not_request_channel in Hin.
Qed.

Lemma add_consistent (id room : string) (fn : bool) (st : state) :
  consistent st → consistent (final (add id room fn None st)).
Proof.
  intros (Hmem & Hne & Hsub). rewrite add_final.
  split; [|split]; cbn.
  - intros s r. specialize (Hmem s r).
    split_key id s; split_key room r; set_solver.
  - intros r. split_key room r; [|done].
    intros [= Heq]. set_solver.
  - intros r. specialize (Hsub r). split_key room r.
    + split; [eauto|set_solver].
    + rewrite elem_of_union, elem_of_singleton. split; [|tauto].
      intros [Heq|?]; [|tauto]. by apply room_channel_inj in Heq.
Qed.

Lemma del_consistent (id room : string) (fn : bool) (st : state) :
  consistent st → consistent (final (del id room fn None st)).
Proof.
  intros (Hmem & Hne & Hsub). rewrite del_final.
  case_decide as Hempty; (split; [|split]); cbn.
  - intros s r. specialize (Hmem s r).
    split_key id s; split_key room r; set_solver.
  - intros r. split_key room r; done.
  - intros r. specialize (Hsub r). split_key room r.
    + split; [set_solver|by intros []].
    + rewrite elem_of_difference, elem_of_singleton. split; [tauto|].
      intros Hsome. split; [tauto|]. intros Heq.
      by apply room_channel_inj in Heq.
  - intros s r. specialize (Hmem s r).
    split_key id s; split_key room r; set_solver.
  - intros r. split_key room r; [|done]. congruence.
  - intros r. specialize (Hsub r). split_key room r; [|done].
    split; [eauto|]. intros _. apply Hsub.
    destruct (rooms st !! r) as [members|] eqn:Hlook; [eauto|].
    unfold or_empty in Hempty. rewrite Hlook in Hempty. set_solver.
Qed.

(** ** The loop of delAll *)

(** One iterator on a bus that carries out the unsubscribe: the room loses
    [id], is dropped and unsubscribed if that empties it, and [next()] is
    called. *)
Lemma delAll_iterator_step (id : string) (own : gset string) (room : string)
    (todo : list string) (st : state) :
  room ∈ own → room ∉ todo → loop_inv id (room :: todo) st →
  ∃ st1 tr1,
    delAll_iterator id own (λ _, None) room st = Some (st1, tr1, Next None)
    ∧ loop_inv id todo st1
    ∧ sids st1 = sids st
    ∧ callbacks tr1 = [].
Proof.
  intros Hown Hfresh (Hmem & Htodo & Hne & Hsub).
  assert (id ∈ or_empty (rooms st) room) as Hin by (apply Htodo; left).
  apply or_empty_elem in Hin as (members & Hlook & Hin).
  unfold delAll_iterator.
  rewrite bool_decide_eq_true_2 by done. rewrite Hlook. cbn.
  rewrite lookup_insert_eq, or_empty_insert.
  rewrite bool_decide_eq_true_2 by eauto. cbn.
  case_bool_decide as Hempty; eexists _, _; (split; [reflexivity|]); cbn;
    (split; [|done]); rewrite ?delete_insert_eq;
    (split; [|split; [|split]]); cbn.
  - intros s r Hs. specialize (Hmem s r Hs).
    split_key room r; [|done].
    rewrite Hmem, (or_empty_Some _ _ _ Hlook). set_solver.
  - intros r. specialize (Htodo r). rewrite elem_of_cons in Htodo.
    split_key room r; [set_solver|]. rewrite Htodo. naive_solver.
  - intros r. split_key room r; done.
  - intros r. specialize (Hsub r). split_key room r.
    + split; [set_solver|by intros []].
    + rewrite elem_of_difference, elem_of_singleton. split; [tauto|].
      intros Hsome. split; [tauto|]. intros Heq.
      by apply room_channel_inj in Heq.
  - intros s r Hs. specialize (Hmem s r Hs).
    split_key room r; [|done].
    rewrite Hmem, (or_empty_Some _ _ _ Hlook). set_solver.
  - intros r. specialize (Htodo r). rewrite elem_of_cons in Htodo.
    split_key room r; [set_solver|]. rewrite Htodo. naive_solver.
  - intros r. split_key room r; [congruence|done].
  - intros r. specialize (Hsub r). split_key room r; [|done].
    rewrite Hsub, Hlook. split; eauto.
Qed.

Lemma forEach_delAll (id : string) (own : gset string) (todo : list string)
    (st : state) :
  NoDup todo → (∀ room, room ∈ todo → room ∈ own) → loop_inv id todo st →
  ∃ st1 tr1 cs,
    forEach (delAll_iterator id own (λ _, None)) todo st = (st1, tr1, cs, false)
    ∧ loop_inv id [] st1
    ∧ sids st1 = sids st
    ∧ callbacks tr1 = []
    ∧ forEach_final cs = Some None.
Proof.
  revert st. induction todo as [|room todo IH]; intros st Hnodup Hown Hinv.
  { by eexists _, _, _. }
  apply NoDup_cons in Hnodup as [Hfresh Hnodup].
  destruct (delAll_iterator_step id own room todo st)
    as (st1 & tr1 & Hiter & Hinv1 & Hsids1 & Hcb1);
    [apply Hown; left|done|done|].
  destruct (IH st1) as (st2 & tr2 & cs & Hloop & Hinv2 & Hsids2 & Hcb2 & Hfinal);
    [done|intros; apply Hown; by right|done|].
  exists st2, (tr1 ++ tr2), (Next None :: cs).
  cbn. rewrite Hiter, Hloop.
  split; [done|]. split; [done|]. split; [congruence|].
  split; [by rewrite callbacks_app, Hcb1, Hcb2|].
  unfold forEach_final in *. cbn. done.
Qed.

(** On a consistent state and a bus that carries out every unsubscribe,
    [delAll] of a known [id] deletes [sids[id]], calls [fn(null)], and
    leaves a consistent state. *)
Lemma delAll_success (id : string) (fn : bool) (own : gset string) (st : state) :
  consistent st → sids st !! id = Some own →
  let out := delAll id fn (λ _, None) st in
  sids (final out) = delete id (sids st)
  ∧ callbacks (trace out) = (if fn then [CbNull] else [])
  ∧ thrown out = None
  ∧ consistent (final out).
Proof.
  intros (Hmem & Hne & Hsub) Hown out. subst out. unfold delAll. rewrite Hown.
  destruct (forEach_delAll id own (elements own) st)
    as (st1 & tr1 & cs & Hloop & (Hmem1 & Htodo1 & Hne1 & Hsub1) & Hsids & Hcb & Hfinal).
  { apply NoDup_elements. }
  { intros room. by rewrite elem_of_elements. }
  { split; [|split; [|done]].
    - intros s room _. apply Hmem.
    - intros room. rewrite elem_of_elements, <- Hmem.
      by rewrite (or_empty_Some _ _ _ Hown). }
  rewrite Hloop, Hfinal. cbn.
  split; [by rewrite Hsids|]. split.
  { rewrite callbacks_app, Hcb. by destruct fn. }
  split; [done|].
  split; [|done]. cbn. intros s room.
  split_key id s.
  - specialize (Htodo1 room). set_solver.
  - by apply Hmem1.
Qed.

Lemma delAll_consistent (id : string) (fn : bool) (st : state) :
  consistent st → consistent (final (delAll id fn (λ _, None) st)).
Proof.
  intros Hst. destruct (sids st !! id) as [own|] eqn:Hown.
  - by destruct (delAll_success id fn own st Hst Hown) as (_ & _ & _ & Hout).
  - unfold delAll. rewrite Hown. by destruct fn.
Qed.

Lemma reachable_consistent (st : state) : reachable st → consistent st.
Proof.
  induction 1 as [|op st _ IH]; [apply construct_consistent|].
  destruct op as [id room fn|id room fn|id fn]; unfold exec.
  - by apply add_consistent.
  - by apply del_consistent.
  - by apply delAll_consistent.
Qed.

(** On a reachable state a room's channel is subscribed exactly if some SID
    is in the room, read from [rooms] or from [sids]. *)
Lemma reachable_subscribed_iff (st : state) (room : string) :
  reachable st →
  (room_channel nsp_name room ∈ subscribed st ↔ ∃ id, member st id room)
  ∧ (room_channel nsp_name room ∈ subscribed st
     ↔ ∃ id, room ∈ or_empty (sids st) id).
Proof.
  intros Hreach. apply reachable_consistent in Hreach as (Hmem & Hne & Hsub).
  assert (room_channel nsp_name room ∈ subscribed st ↔ ∃ id, member st id room)
    as Hiff.
  { rewrite Hsub. unfold member. split.
    - intros [members Hlook].
      destruct (set_choose_L members) as [id Hid]; [by intros ->; eapply Hne|].
      eauto.
    - intros (id & members & Hlook & _). eauto. }
  split; [done|]. rewrite Hiff.
  split; intros [id Hid]; exists id.
  - apply Hmem, or_empty_elem, Hid.
  - apply or_empty_elem, Hmem, Hid.
Qed.

(** ** The commands of delAll *)

(** One iterator, whatever the bus answers: it touches its own room only,
    subscribes to nothing, and unsubscribes exactly if it leaves the room
    without a member. *)
Lemma delAll_iterator_commands (id : string) (own : gset string)
    (err : string → option string) (room : string) (st st1 : state)
    (tr1 : list event) (c : completion) :
  room ∈ own →
  delAll_iterator id own err room st = Some (st1, tr1, c) →
  (∀ r, r ≠ room → rooms st1 !! r = rooms st !! r)
  ∧ (∀ chn, EUnsubscribe chn ∈ tr1
            ↔ chn = room_channel nsp_name room ∧ or_empty (rooms st1) room = ∅)
  ∧ (∀ chn, ESubscribe chn ∉ tr1).
Proof.
  intros Hown. unfold delAll_iterator.
  rewrite bool_decide_eq_true_2 by done.
  destruct (rooms st !! room) as [members|] eqn:Hlook; [|done]. cbn.
  rewrite lookup_insert_eq, or_empty_insert.
  rewrite bool_decide_eq_true_2 by eauto. cbn.
  case_bool_decide as Hempty; intros [= <- <- <-]; cbn.
  - split; [intros r Hr; by rewrite lookup_delete_ne, lookup_insert_ne|].
    rewrite or_empty_delete.
    split; intros chn; destruct (err _); set_unfold; naive_solver.
  - split; [intros r Hr; by rewrite lookup_insert_ne|].
    rewrite or_empty_insert.
    split; intros chn; set_unfold; naive_solver.
Qed.






(** ** delAll never reports an error *)

Lemma delAll_iterator_quiet (id : string) (own : gset string)
    (err : string → option string) (room : string) (st st1 : state)
    (tr1 : list event) (c : completion) :
  delAll_iterator id own err room st = Some (st1, tr1, c) →
  callbacks tr1 = [] ∧ sids st1 = sids st ∧ (c = NoNext ∨ c = Next None).
Proof.
  unfold delAll_iterator. intros Hiter.
  destruct (if bool_decide (room ∈ own) then _ else _) as [st0|] eqn:Hst0;
    [|done].
  assert (sids st0 = sids st) as Hsids.
  { case_bool_decide; [|by injection Hst0 as <-].
    destruct (rooms st !! room); [|done]. by injection Hst0 as <-. }
  cbn in Hiter. case_match.
  - injection Hiter as <- <- <-. destruct (err _); cbn; eauto.
  - injection Hiter as <- <- <-. eauto.
Qed.

Lemma forEach_delAll_quiet (id : string) (own : gset string)
    (err : string → option string) (keys : list string) (st st1 : state)
    (tr1 : list event) (cs : list completion) (exn : bool) :
  forEach (delAll_iterator id own err) keys st = (st1, tr1, cs, exn) →
  callbacks tr1 = [] ∧ sids st1 = sids st ∧ first_error cs = None.
Proof.
  revert st st1 tr1 cs exn.
  induction keys as [|key keys IH]; intros st st1 tr1 cs exn Hloop; cbn in Hloop.
  { by injection Hloop as <- <- <- <-. }
  destruct (delAll_iterator id own err key st) as [[[st0 tr0] c]|] eqn:Hiter.
  - destruct (forEach _ keys st0) as [[[st2 tr2] cs2] exn2] eqn:Hrest.
    injection Hloop as <- <- <- <-.
    apply delAll_iterator_quiet in Hiter as (Hcb0 & Hsids0 & Hc).
    apply IH in Hrest as (Hcb2 & Hsids2 & Hcs2).
    split; [by rewrite callbacks_app, Hcb0, Hcb2|]. split; [congruence|].
    by destruct Hc as [-> | ->].
  - by injection Hloop as <- <- <- <-.
Qed.

(** Whatever the bus answers, [delAll] calls [fn] with [null] or not at all,
    and deletes [sids[id]] only together with that call. *)
Lemma delAll_no_error_callback (id : string) (fn : bool)
    (err : string → option string) (st : state) :
  let out := delAll id fn err st in
  (callbacks (trace out) = [] ∧ sids (final out) = sids st)
  ∨ (callbacks (trace out) = (if fn then [CbNull] else [])
     ∧ sids (final out) = delete id (sids st)).
Proof.
  cbn. unfold delAll. destruct (sids st !! id) as [own|] eqn:Hown.
  - destruct (forEach _ (elements own) st) as [[[st1 tr1] cs] exn] eqn:Hloop.
    apply forEach_delAll_quiet in Hloop as (Hcb & Hsids & Hcs).
    destruct exn; [by left|].
    unfold forEach_final. rewrite Hcs.
    destruct (forallb called_next cs); cbn.
    + right. rewrite callbacks_app, Hcb, Hsids. by destruct fn.
    + by left.
  - right. rewrite (delete_id _ _ Hown). by destruct fn.
Qed.

(** ** split and the channel kinds *)

Lemma split_nonempty (sep : ascii) (s : string) : split sep s ≠ [].
Proof.
  destruct s as [|c s]; cbn; [done|].
  destruct (Ascii.eqb c sep); [done|]. by destruct (split sep s).
Qed.

Lemma split_app_sep (a b : string) :
  split hash (a +:+ String hash b) = split hash a ++ split hash b.
Proof.
  induction a as [|c a IH].
  - reflexivity.
  - change (split hash (String c (a +:+ String hash b))
            = split hash (String c a) ++ split hash b).
    cbn [split]. rewrite IH.
    destruct (Ascii.eqb c hash); [done|].
    pose proof (split_nonempty hash a). by destruct (split hash a).
Qed.

Lemma split_no_hash (s : string) : has_hash s = false → split hash s = [s].
Proof.
  induction s as [|c s IH]; [done|]. cbn [has_hash split].
  intros [Hc Hs]%orb_false_iff. rewrite Hc, IH; done.
Qed.

Lemma slice_neg_first_1 (pieces : list string) (a : string) :
  slice_neg_first 1 (pieces ++ [a]) = Some a.
Proof.
  unfold slice_neg_first, slice_neg. rewrite length_app. cbn.
  replace (length pieces + 1 - 1) with (length pieces) by lia.
  by rewrite drop_app_length.
Qed.

Lemma slice_neg_first_2 (pieces : list string) (a b : string) :
  slice_neg_first 2 ((pieces ++ [a]) ++ [b]) = Some a.
Proof.
  unfold slice_neg_first, slice_neg. rewrite <- app_assoc, length_app. cbn.
  replace (length pieces + 2 - 2) with (length pieces) by lia.
  by rewrite drop_app_length.
Qed.

(** The request channel is recognised as such, whatever the prefix; a
    namespace or room channel never is. *)
Lemma request_channel_recognised : is_request_channel request_channel = true.
Proof.
  unfold is_request_channel, request_channel.
  change (prefix +:+ "#clientrequest") with (prefix +:+ String hash "clientrequest").
  rewrite split_app_sep. change (split hash "clientrequest") with ["clientrequest"].
  by rewrite slice_neg_first_1.
Qed.

Lemma nsp_channel_not_request (n : string) :
  is_request_channel (nsp_channel n) = false.
Proof.
  unfold is_request_channel, nsp_channel.
  change (prefix +:+ "#" +:+ n +:+ "#")
    with (prefix +:+ String hash (n +:+ String hash "")).
  rewrite !split_app_sep, !app_assoc. change (split hash "") with [""].
  by rewrite slice_neg_first_1.
Qed.

Lemma room_channel_not_request (n room : string) :
  is_request_channel (room_channel n room) = false.
Proof.
  unfold is_request_channel, room_channel.
  change (prefix +:+ "#" +:+ n +:+ "#" +:+ room +:+ "#")
    with (prefix +:+ String hash (n +:+ String hash (room +:+ String hash ""))).
  rewrite !split_app_sep, !app_assoc. change (split hash "") with [""].
  by rewrite slice_neg_first_1.
Qed.

(** The listener of a query recognises the query's own response channel. *)
Lemma response_channel_recognised (muid : string) :
  has_hash muid = false →
  is_response_for muid (response_channel muid) = true.
Proof.
  intros Hmuid. unfold is_response_for, response_channel.
  change (prefix +:+ "#" +:+ muid +:+ "#clientresponse")
    with (prefix +:+ String hash (muid +:+ String hash "clientresponse")).
  rewrite !split_app_sep, (split_no_hash muid), !app_assoc by done.
  change (split hash "clientresponse") with ["clientresponse"].
  rewrite slice_neg_first_1, slice_neg_first_2.
  by rewrite !bool_decide_eq_true_2.
Qed.

(** ** The fleet query *)

Lemma run_not_pending (q : query) (evs : list qevent) :
  pending q = false → run q evs = (q, []).
Proof.
  intros Hq. induction evs as [|ev evs IH]; [done|].
  cbn. unfold deliver. by rewrite Hq, IH.
Qed.

Lemma onclientresponsemessage_other (q : query) (channel : string) (ids : list string) :
  is_response_for (q_muid q) channel = false →
  onclientresponsemessage q channel ids = (q, []).
Proof.
  unfold is_response_for, onclientresponsemessage.
  intros H. repeat case_bool_decide; done.
Qed.

Lemma onclientresponsemessage_match (q : query) (channel : string) (ids : list string) :
  is_response_for (q_muid q) channel = true →
  onclientresponsemessage q channel ids
  = let q' := Query (q_muid q) (remaining q - 1) (acc q ++ ids) (q_fn q) (pending q) in
    if bool_decide (remaining q' = 0%Z) then finish q' else (q', []).
Proof.
  unfold is_response_for, onclientresponsemessage.
  intros H. repeat case_bool_decide; done.
Qed.

Lemma completes_nil (expected : Z) (muid : string) : ¬ completes expected muid [].
Proof. intros [H|H]; [by apply elem_of_nil in H|cbn in H; lia]. Qed.

Lemma completes_skip (expected : Z) (muid channel : string) (ids : list string)
    (evs : list qevent) :
  is_response_for muid channel = false →
  completes expected muid (QMessage channel ids :: evs) ↔ completes expected muid evs.
Proof.
  intros H. unfold completes, responses. cbn. rewrite H, elem_of_cons.
  naive_solver.
Qed.

Lemma completes_match (expected : Z) (muid channel : string) (ids : list string)
    (evs : list qevent) :
  is_response_for muid channel = true → expected ≠ 1%Z →
  completes expected muid (QMessage channel ids :: evs)
  ↔ completes (expected - 1) muid evs.
Proof.
  intros H Hexp. unfold completes, responses. cbn. rewrite H, elem_of_cons. cbn.
  split; (intros [Ht|Hn]; [left; naive_solver|right; lia]).
Qed.

(** The query with a callback, from any point where it is pending: [fn] is
    not called before the deliveries complete the query, and is called once,
    at the delivery that completes it, with what was accumulated so far
    followed by the responses that arrived up to that delivery. *)
Lemma run_pending (evs : list qevent) (muid : string) (expected : Z)
    (sofar : list string) :
  let out := run (Query muid expected sofar true true) evs in
  (¬ completes expected muid evs → callbacks (snd out) = [])
  ∧ (completes expected muid evs →
     ∃ pre ev post,
       evs = pre ++ ev :: post
       ∧ ¬ completes expected muid pre
       ∧ completes expected muid (pre ++ [ev])
       ∧ callbacks (snd out)
         = [CbSids (sofar ++ concat (responses muid (pre ++ [ev])))]).
Proof.
  revert expected sofar.
  induction evs as [|ev evs IH]; intros expected sofar; cbn zeta.
  { split; [done|]. intros H. by apply completes_nil in H. }
  destruct ev as [channel ids|].
  - destruct (is_response_for muid channel) eqn:Hchan.
    + cbn [run deliver pending].
      rewrite onclientresponsemessage_match by done. cbn.
      case_bool_decide as Hlast.
      * (* the expected number has arrived *)
        unfold finish. cbn. rewrite run_not_pending by done. cbn.
        assert (completes expected muid ([] ++ [QMessage channel ids])) as Hdone.
        { right. unfold responses. cbn. rewrite Hchan. cbn. lia. }
        split.
        { intros Hnot. destruct Hnot. right.
          unfold responses. cbn. rewrite Hchan. cbn. lia. }
        intros _. exists [], (QMessage channel ids), evs.
        split; [done|]. split; [apply completes_nil|]. split; [done|].
        unfold responses. cbn. rewrite Hchan. cbn. by rewrite app_nil_r.
      * destruct (run _ evs) as [q2 tr2] eqn:Hrun.
        specialize (IH (expected - 1)%Z (sofar ++ ids)). cbn zeta in IH.
        rewrite Hrun in IH. destruct IH as [IHnot IHdone]. cbn in IHnot, IHdone |- *.
        assert (expected ≠ 1%Z) by lia.
        rewrite completes_match by done. split; [done|].
        intros (pre & ev & post & -> & Hpre & Hev & Hcb)%IHdone.
        exists (QMessage channel ids :: pre), ev, post.
        split; [done|]. split; [by rewrite completes_match|].
        split; [cbn; by rewrite completes_match|].
        rewrite Hcb. unfold responses. cbn. rewrite Hchan. cbn.
        by rewrite <- app_assoc.
    + cbn [run deliver pending].
      rewrite onclientresponsemessage_other by done.
      destruct (run _ evs) as [q2 tr2] eqn:Hrun.
      specialize (IH expected sofar). cbn zeta in IH.
      rewrite Hrun in IH. destruct IH as [IHnot IHdone]. cbn in IHnot, IHdone |- *.
      rewrite completes_skip by done. split; [done|].
      intros (pre & ev & post & -> & Hpre & Hev & Hcb)%IHdone.
      exists (QMessage channel ids :: pre), ev, post.
      split; [done|]. split; [by rewrite completes_skip|].
      split; [cbn; by rewrite completes_skip|].
      rewrite Hcb. unfold responses. cbn. by rewrite Hchan.
  - (* the timer fires *)
    cbn [run deliver pending]. unfold finish. cbn.
    rewrite run_not_pending by done. cbn.
    split; [intros Hnot; destruct Hnot; left; left|].
    intros _. exists [], QTimeout, evs.
    split; [done|]. split; [apply completes_nil|].
    split; [left; left|]. cbn. by rewrite app_nil_r.
Qed.

(** Never more than one call of [fn]. *)
Lemma run_calls_at_most_once (evs : list qevent) (muid : string) (expected : Z)
    (sofar : list string) :
  (length (callbacks (snd (run (Query muid expected sofar true true) evs))) ≤ 1)%nat.
Proof.
  destruct (run_pending evs muid expected sofar) as [Hnot Hdone].
  destruct (decide (completes expected muid evs)) as [Hc|Hc].
  - destruct (Hdone Hc) as (pre & ev & post & _ & _ & _ & ->). cbn. lia.
  - rewrite (Hnot Hc). cbn. lia.
Qed.

(** A failure before the query is set up is reported by one call of [fn]
    with the error: of the local lookup, or of NUMSUB. *)
Lemma clients_fleet_failure (rs : list string) (ids0 : option (list string))
    (err : string) (numsub : reply Z) (suberr : option string) (muid : string) :
  clients rs true None false (Err err) numsub suberr muid
  = (None, [ECallback (CbErr err)])
  ∧ clients rs true None false (Ok ids0) (Err err) suberr muid
    = (None, [ENumsub request_channel; ECallback (CbErr err)]).
Proof. done. Qed.

(** C4: a fleet call with a callback, whose local lookup gave [ids0] and
    whose NUMSUB gave [S].  The call arms the timer with [timeout * (S - 1)],
    subscribes to the response channel, publishes the request and does not
    call [fn] yet.  Whatever is then delivered, [fn] is not called before the
    timer fires or [S - 1] responses have arrived, and is called exactly once
    at the first delivery with which one of the two has happened, with the
    local list followed by the response lists that arrived up to then, in
    arrival order and with their duplicates; nothing delivered later calls
    it again. *)
Theorem clients_fleet_calls_back_once (rs : list string)
    (ids0 : option (list string)) (S : Z) (suberr : option string)
    (muid : string) (evs : list qevent) :
  ∃ q tr0,
    clients rs true None false (Ok ids0) (Ok S) suberr muid = (Some q, tr0)
    ∧ ESetTimeout (timeout * (S - 1)) ∈ tr0
    ∧ EPublish request_channel (PRequest nsp_name uid muid rs) ∈ tr0
    ∧ callbacks tr0 = []
    ∧ (length (callbacks (snd (run q evs))) ≤ 1)%nat
    ∧ (¬ completes (S - 1) muid evs → callbacks (snd (run q evs)) = [])
    ∧ (completes (S - 1) muid evs →
       ∃ pre ev post,
         evs = pre ++ ev :: post
         ∧ ¬ completes (S - 1) muid pre
         ∧ completes (S - 1) muid (pre ++ [ev])
         ∧ callbacks (snd (run q evs))
           = [CbSids (default [] ids0
                      ++ concat (responses muid (pre ++ [ev])))]).
Proof.
  eexists _, _. split; [reflexivity|].
  split; [set_unfold; naive_solver|].
  split; [destruct suberr; set_unfold; naive_solver|].
  split; [by destruct suberr|].
  split; [apply run_calls_at_most_once|].
  apply (run_pending evs muid (S - 1) (default [] ids0)).
Qed.

(** * Further properties *)

(** ** The channel namer *)

Lemma split_room_channel (n room : string) :
  split hash (room_channel n room)
  = split hash prefix ++ split hash n ++ split hash room ++ [""].
Proof.
  unfold room_channel.
  change (prefix +:+ "#" +:+ n +:+ "#" +:+ room +:+ "#")
    with (prefix +:+ String hash (n +:+ String hash (room +:+ String hash ""))).
  by rewrite !split_app_sep.
Qed.

Lemma split_response_channel (muid : string) :
  has_hash muid = false →
  split hash (response_channel muid)
  = (split hash prefix ++ [muid]) ++ ["clientresponse"].
Proof.
  intros Hmuid. unfold response_channel.
  change (prefix +:+ "#" +:+ muid +:+ "#clientresponse")
    with (prefix +:+ String hash (muid +:+ String hash "clientresponse")).
  by rewrite !split_app_sep, (split_no_hash muid), !app_assoc.
Qed.

(** The handler tells the channels apart as the namer built them, whatever
    the prefix, namespace, room and query identifier: the request channel is
    taken for a request, and a namespace, room or response channel never
    is. *)
Theorem channel_kinds (n room muid : string) :
  is_request_channel request_channel = true
  ∧ is_request_channel (nsp_channel n) = false
  ∧ is_request_channel (room_channel n room) = false
  ∧ is_request_channel (response_channel muid) = false.
Proof.
  split; [apply request_channel_recognised|].
  split; [apply nsp_channel_not_request|].
  split; [apply room_channel_not_request|].
  unfold is_request_channel, response_channel.
  change (prefix +:+ "#" +:+ muid +:+ "#clientresponse")
    with (prefix +:+ String hash (muid +:+ String hash "clientresponse")).
  rewrite !split_app_sep, !app_assoc.
  change (split hash "clientresponse") with ["clientresponse"].
  by rewrite slice_neg_first_1.
Qed.

(** Room channels do not collide: within a namespace two rooms have two
    channels, none of which is the namespace channel or the request channel;
    across namespaces whose names are free of [#] the channel determines
    both the namespace and the room. *)
Theorem room_channels_distinct (n1 n2 room1 room2 : string) :
  (room_channel n1 room1 = room_channel n1 room2 → room1 = room2)
  ∧ room_channel n1 room1 ≠ nsp_channel n1
  ∧ room_channel n1 room1 ≠ request_channel
  ∧ (has_hash n1 = false → has_hash n2 = false →
     room_channel n1 room1 = room_channel n2 room2 → n1 = n2 ∧ room1 = room2).
Proof.
  split; [apply room_channel_inj|].
  split; [apply room_channel_not_nsp_channel|].
  split; [apply room_channel_not_request_channel|].
  intros Hn1 Hn2 Heq.
  assert (n1 = n2) as <-.
  { apply (f_equal (split hash)) in Heq.
    rewrite !split_room_channel, (split_no_hash n1), (split_no_hash n2) in Heq
      by done.
    apply app_inv_head in Heq. by injection Heq. }
  split; [done|]. by apply room_channel_inj in Heq.
Qed.

(** The listener of a query takes the response channel of a query for its
    own exactly if the two query identifiers are the same (identifiers free
    of [#], as [uid2] makes them): responses never reach another query. *)
Theorem response_channel_routes (muid1 muid2 : string) :
  has_hash muid1 = false → has_hash muid2 = false →
  is_response_for muid1 (response_channel muid2) = true ↔ muid1 = muid2.
Proof.
  intros H1 H2. unfold is_response_for.
  rewrite split_response_channel by done.
  rewrite slice_neg_first_1, slice_neg_first_2.
  rewrite bool_decide_eq_true_2 by done. cbn.
  rewrite bool_decide_eq_true. split; [by intros [= ->]|by intros ->].
Qed.

(** ** What the handler never does *)

(** Every message a node publishes by [broadcast] is dropped by its own
    handler as its own, on whatever facade it arrives. *)
Theorem own_broadcast_ignored (p : packet) (opts : options) (remote : bool)
    (chn : string) (m : payload) :
  (chn, m) ∈ publishes (broadcast p opts remote) →
  ∃ msg, decode m = Some msg ∧ onmessage chn msg = Ignore "ignore same uid".
Proof.
  intros Hin.
  assert (m = PBroadcast uid p opts ∧ is_request_channel chn = false)
    as [-> Hchn].
  { destruct remote; [by apply elem_of_nil in Hin|].
    destruct opts as [[rs|] r].
    - rewrite broadcast_listed_rooms in Hin.
      apply list_elem_of_fmap in Hin as (room & [= -> ->] & _).
      split; [done|]. apply room_channel_not_request.
    - rewrite broadcast_absent_rooms in Hin.
      apply list_elem_of_singleton in Hin as [= -> ->].
      split; [done|]. apply nsp_channel_not_request. }
  eexists. split; [reflexivity|].
  unfold onmessage. rewrite Hchn. by rewrite bool_decide_eq_true_2.
Qed.

(** Handling a broadcast message never sends a command to the bus: nothing
    is published, subscribed or unsubscribed, so a broadcast is not passed
    on a second time; at most one local emit happens. *)
Theorem inbound_broadcast_sends_nothing (channel sender : string)
    (p : option packet) (o : options) (local : reply (option (list string)))
    (numsub : reply Z) (suberr : option string) (muid : string) :
  is_request_channel channel = false →
  ∃ tr, handle channel (MBroadcast sender p o) local numsub suberr muid = Some tr
        ∧ filter is_command tr = []
        ∧ (length (local_emits tr) ≤ 1)%nat.
Proof.
  intros Hchn. unfold handle, onmessage. rewrite Hchn.
  assert (∀ tr : list event, tr = [] ∨ (∃ pk, tr = [EBaseBroadcast pk o]) →
          ∃ tr', Some tr = Some tr' ∧ filter is_command tr' = []
                 ∧ (length (local_emits tr') ≤ 1)%nat) as Hquiet.
  { intros tr [->|[pk ->]]; eexists; (split; [reflexivity|]); cbn; split;
      (done || lia). }
  case_bool_decide; [apply Hquiet; by left|].
  destruct p as [p|]; cbn; [|apply Hquiet; by left].
  case_bool_decide; [apply Hquiet; by left|].
  apply Hquiet. right. by eexists.
Qed.


(** ** Membership *)

Lemma member_or_empty (st : state) (id room : string) :
  member st id room ↔ id ∈ or_empty (rooms st) room.
Proof. unfold member. by rewrite or_empty_elem. Qed.

Lemma add_member_iff (id room : string) (fn : bool) (err : option string)
    (st : state) (id' room' : string) :
  member (final (add id room fn err st)) id' room'
  ↔ member st id' room' ∨ (id' = id ∧ room' = room).
Proof.
  rewrite !member_or_empty, add_final. cbn.
  split_key room room'; set_solver.
Qed.

Lemma del_member_iff (id room : string) (fn : bool) (err : option string)
    (st : state) (id' room' : string) :
  member (final (del id room fn err st)) id' room'
  ↔ member st id' room' ∧ ¬ (id' = id ∧ room' = room).
Proof.
  rewrite !member_or_empty, del_final.
  case_decide as Hempty; cbn; split_key room room'; set_solver.
Qed.


(** [add] puts [id] in [room], in both maps, and changes no other
    membership, whatever the state and the answer of the bus. *)
Theorem add_membership (id room : string) (fn : bool) (err : option string)
    (st : state) :
  let st' := final (add id room fn err st) in
  member st' id room
  ∧ room ∈ or_empty (sids st') id
  ∧ ∀ id' room', ¬ (id' = id ∧ room' = room) →
      (member st' id' room' ↔ member st id' room')
      ∧ (room' ∈ or_empty (sids st') id' ↔ room' ∈ or_empty (sids st) id').
Proof.
  cbn zeta. split; [apply add_member_iff; by right|]. split.
  { rewrite add_final. cbn. rewrite or_empty_insert. set_solver. }
  intros id' room' Hother. split; [rewrite add_member_iff; tauto|].
  rewrite add_final. cbn. split_key id id'; [|done]. set_solver.
Qed.

(** [del] takes [id] out of [room], in both maps, and changes no other
    membership, whatever the state and the answer of the bus. *)
Theorem del_membership (id room : string) (fn : bool) (err : option string)
    (st : state) :
  let st' := final (del id room fn err st) in
  ¬ member st' id room
  ∧ (room ∉ or_empty (sids st') id)
  ∧ ∀ id' room', ¬ (id' = id ∧ room' = room) →
      (member st' id' room' ↔ member st id' room')
      ∧ (room' ∈ or_empty (sids st') id' ↔ room' ∈ or_empty (sids st) id').
Proof.
  cbn zeta. split; [rewrite del_member_iff; tauto|].
  assert (sids (final (del id room fn err st))
          = <[id := or_empty (sids st) id ∖ {[room]}]> (sids st)) as Hsids.
  { rewrite del_final. by case_decide. }
  rewrite Hsids. split; [rewrite or_empty_insert; set_solver|].
  intros id' room' Hother. split; [rewrite del_member_iff; tauto|].
  split_key id id'; [|done]. set_solver.
Qed.

(** On a working bus a second [add] of the same pair, and a second [del] of
    the same pair, change nothing. *)
Theorem add_del_idempotent (id room : string) (fn1 fn2 : bool) (st : state) :
  final (add id room fn2 None (final (add id room fn1 None st)))
  = final (add id room fn1 None st)
  ∧ final (del id room fn2 None (final (del id room fn1 None st)))
    = final (del id room fn1 None st).
Proof.
  split.
  - rewrite !add_final. cbn. rewrite !or_empty_insert, !insert_insert_eq.
    f_equal; [f_equal; set_solver|f_equal; set_solver|set_solver].
  - rewrite (del_final id room fn1). case_decide as Hempty; rewrite del_final; cbn.
    + rewrite or_empty_insert, or_empty_delete, insert_insert_eq.
      rewrite decide_True by set_solver.
      f_equal; [f_equal; set_solver|by rewrite delete_delete_eq|set_solver].
    + rewrite !or_empty_insert, !insert_insert_eq.
      rewrite decide_False by set_solver.
      f_equal; f_equal; set_solver.
Qed.


(** ** When the bus refuses *)

(** A failed subscribe is emitted as an error event, and [fn(err)] follows
    only if the facade has a listener for ['error']: without one the emit
    throws and [fn] is not reached.  Either way the membership is kept: the
    room now has a member on this node and its channel is not subscribed, so
    broadcasts of peers to the room do not arrive. *)
Theorem failed_subscribe_keeps_membership (id room : string) (fn : bool)
    (e : string) (st : state) :
  reachable st →
  (∀ id', ¬ member st id' room) →
  let out := add id room fn (Some e) st in
  member (final out) id room
  ∧ (room_channel nsp_name room ∉ subscribed (final out))
  ∧ trace out = ESubscribe (room_channel nsp_name room) :: EEmitError e ::
                (if error_listener
                 then if fn then [ECallback (CbErr e)] else []
                 else [])
  ∧ (error_listener = false → callbacks (trace out) = []).
Proof.
  intros Hst Hnone. cbn zeta.
  split; [apply add_member_iff; by right|]. split; [|split; [done|]].
  2: { intros Hno. cbn. by rewrite Hno. }
  rewrite add_final. cbn.
  destruct (reachable_subscribed_iff st room Hst) as [Hsub _].
  rewrite Hsub. intros [id' Hid']. by eapply Hnone.
Qed.

(** A failed unsubscribe is emitted and passed on in the same way ([fn(err)]
    only with a listener for ['error']), and the room is dropped all the
    same: its channel stays subscribed with no member left. *)
Theorem failed_unsubscribe_keeps_subscription (id room : string) (fn : bool)
    (e : string) (st : state) :
  reachable st →
  member st id room →
  (∀ id', member st id' room → id' = id) →
  let out := del id room fn (Some e) st in
  (∀ id', ¬ member (final out) id' room)
  ∧ room_channel nsp_name room ∈ subscribed (final out)
  ∧ trace out = EUnsubscribe (room_channel nsp_name room) :: EEmitError e ::
                (if error_listener
                 then if fn then [ECallback (CbErr e)] else []
                 else [])
  ∧ (error_listener = false → callbacks (trace out) = []).
Proof.
  intros Hst Hid Honly. cbn zeta.
  assert (or_empty (rooms st) room ∖ {[id]} = ∅) as Hempty.
  { apply set_eq. intros id'. rewrite elem_of_difference, <- member_or_empty.
    set_solver. }
  split; [|split].
  - intros id'. rewrite del_member_iff. intros [Hid' Hne].
    apply Hne. split; [by apply Honly|done].
  - rewrite del_final, decide_True by done. cbn.
    destruct (reachable_subscribed_iff st room Hst) as [Hsub _].
    apply Hsub. eauto.
  - assert (trace (del id room fn (Some e) st)
            = EUnsubscribe (room_channel nsp_name room) :: report fn (Some e))
      as ->.
    { unfold del. rewrite !or_empty_insert, lookup_insert_eq.
      rewrite bool_decide_eq_true_2 by eauto.
      by rewrite bool_decide_eq_true_2. }
    split; [done|]. intros Hno. cbn. by rewrite Hno.
Qed.

(** ** Callbacks and exceptions on reachable states *)




(** ** The constructor's channels *)

Lemma delAll_iterator_other_channels (id : string) (own : gset string)
    (err : string → option string) (room : string) (st st1 : state)
    (tr1 : list event) (c : completion) (chn : string) :
  delAll_iterator id own err room st = Some (st1, tr1, c) →
  (∀ r, chn ≠ room_channel nsp_name r) →
  chn ∈ subscribed st1 ↔ chn ∈ subscribed st.
Proof.
  unfold delAll_iterator. intros Hiter Hchn.
  destruct (if bool_decide (room ∈ own) then _ else _) as [st0|] eqn:Hst0;
    [|done].
  assert (subscribed st0 = subscribed st) as Hsubs.
  { case_bool_decide; [|by injection Hst0 as <-].
    destruct (rooms st !! room); [|done]. by injection Hst0 as <-. }
  cbn in Hiter. case_match; injection Hiter as <- <- <-; cbn; [|by rewrite Hsubs].
  specialize (Hchn room). rewrite <- Hsubs.
  unfold after_unsubscribe. destruct (err _); set_solver.
Qed.

Lemma forEach_other_channels (id : string) (own : gset string)
    (err : string → option string) (keys : list string) (st st1 : state)
    (tr1 : list event) (cs : list completion) (exn : bool) (chn : string) :
  forEach (delAll_iterator id own err) keys st = (st1, tr1, cs, exn) →
  (∀ r, chn ≠ room_channel nsp_name r) →
  chn ∈ subscribed st1 ↔ chn ∈ subscribed st.
Proof.
  revert st st1 tr1 cs exn.
  induction keys as [|key keys IH]; intros st st1 tr1 cs exn Hloop Hchn;
    cbn in Hloop.
  { by injection Hloop as <- <- <- <-. }
  destruct (delAll_iterator id own err key st) as [[[st0 tr0] c]|] eqn:Hiter.
  - destruct (forEach _ keys st0) as [[[st2 tr2] cs2] exn2] eqn:Hrest.
    injection Hloop as <- <- <- <-.
    rewrite (IH _ _ _ _ _ Hrest Hchn).
    by eapply delAll_iterator_other_channels.
  - by injection Hloop as <- <- <- <-.
Qed.

(** An operation answered in any way by the bus touches the subscription of
    room channels only. *)
Lemma operations_other_channels (id : string) (fn : bool)
    (err : string → option string) (st : state) (chn : string) :
  (∀ r, chn ≠ room_channel nsp_name r) →
  (∀ room e, chn ∈ subscribed (final (add id room fn e st)) ↔ chn ∈ subscribed st)
  ∧ (∀ room e, chn ∈ subscribed (final (del id room fn e st)) ↔ chn ∈ subscribed st)
  ∧ (chn ∈ subscribed (final (delAll id fn err st)) ↔ chn ∈ subscribed st).
Proof.
  intros Hchn. split; [|split].
  - intros room e. rewrite add_final. cbn. specialize (Hchn room).
    unfold after_subscribe. destruct e; set_solver.
  - intros room e. rewrite del_final. specialize (Hchn room).
    unfold after_unsubscribe. case_decide; destruct e; set_solver.
  - unfold delAll. destruct (sids st !! id) as [own|]; [|by destruct fn].
    destruct (forEach _ (elements own) st) as [[[st1 tr1] cs] exn] eqn:Hloop.
    apply (forEach_other_channels _ _ _ _ _ _ _ _ _ chn) in Hloop; [|done].
    destruct exn; [done|]. by destruct (forEach_final cs) as [[?|]|].
Qed.

Lemma reachable_other_channels (st : state) (chn : string) :
  reachable st →
  (∀ r, chn ≠ room_channel nsp_name r) →
  chn ∈ subscribed st ↔ chn = nsp_channel nsp_name ∨ chn = request_channel.
Proof.
  intros Hst Hchn. induction Hst as [|op st _ IH].
  - cbn. set_solver.
  - rewrite <- IH.
    destruct op as [id room fn|id room fn|id fn]; cbn [exec];
      by apply (operations_other_channels id fn (λ _, None) st chn Hchn).
Qed.

(** The constructor with a working bus gives the initial state, and in every
    state reached from it the channels that are not room channels are the
    two of the constructor: no [add], [del] or [delAll] ever unsubscribes
    the namespace channel or the request channel. *)
Theorem constructor_channels_stay (st : state) (chn : string) :
  reachable st →
  final (Redis_new None None) = construct
  ∧ nsp_channel nsp_name ∈ subscribed st
  ∧ request_channel ∈ subscribed st
  ∧ ((∀ r, chn ≠ room_channel nsp_name r) →
     chn ∈ subscribed st ↔ chn = nsp_channel nsp_name ∨ chn = request_channel).
Proof.
  intros Hst. split.
  { unfold Redis_new, construct. cbn. f_equal. set_solver. }
  split; [|split].
  - apply reachable_other_channels; [done| |by left].
    intros r Heq. symmetry in Heq. by apply room_channel_not_nsp_channel in Heq.
  - apply reachable_other_channels; [done| |by right].
    intros r Heq. symmetry in Heq.
    by apply room_channel_not_request_channel in Heq.
  - by apply reachable_other_channels.
Qed.

(** ** Everybody leaves *)

(** Once every member of a room has left it by [del], on a working bus, the
    room's channel is no longer subscribed. *)
Theorem all_leave_unsubscribes (ids : list string) (room : string) (st : state) :
  reachable st →
  (∀ id, member st id room → id ∈ ids) →
  reachable (leave_all ids room st)
  ∧ (room_channel nsp_name room ∉ subscribed (leave_all ids room st))
  ∧ (∀ id, ¬ member (leave_all ids room st) id room).
Proof.
  revert st. induction ids as [|id ids IH]; intros st Hst Hall; cbn.
  - split; [done|].
    assert (∀ id, ¬ member st id room) as Hnone.
    { intros id Hid. apply Hall in Hid. by apply elem_of_nil in Hid. }
    split; [|done].
    destruct (reachable_subscribed_iff st room Hst) as [-> _].
    intros [id Hid]. by eapply Hnone.
  - apply IH.
    + apply (reachable_exec (Del id room false) st Hst).
    + intros id'. rewrite del_member_iff. intros [Hid' Hne].
      apply Hall in Hid'. apply elem_of_cons in Hid' as [->|]; [|done].
      by destruct Hne.
Qed.


(** ** delAll on a bus that may refuse *)

(** What is left of a room once [id] is taken out: nothing if it is then
    empty. *)
Lemma delAll_iterator_any (id : string) (own : gset string)
    (err : string → option string) (room : string) (st : state)
    (members : gset string) :
  room ∈ own → rooms st !! room = Some members →
  delAll_iterator id own err room st
  = Some (if decide (members ∖ {[id]} = ∅) then
            (State (sids st) (delete room (rooms st))
                   (after_unsubscribe (err (room_channel nsp_name room))
                      (room_channel nsp_name room) (subscribed st)),
             EUnsubscribe (room_channel nsp_name room) ::
               match err (room_channel nsp_name room) with
               | Some e => [EEmitError e] | None => [] end,
             match err (room_channel nsp_name room) with
             | Some _ => NoNext | None => Next None end)
          else
            (State (sids st) (<[room := members ∖ {[id]}]> (rooms st))
                   (subscribed st), [], Next None)).
Proof.
  intros Hown Hlook. unfold delAll_iterator.
  rewrite bool_decide_eq_true_2 by done. rewrite Hlook. cbn.
  rewrite lookup_insert_eq, or_empty_insert.
  rewrite bool_decide_eq_true_2 by eauto. cbn.
  case_bool_decide; case_decide; try done. by rewrite delete_insert_eq.
Qed.

Lemma forEach_delAll_any (id : string) (own : gset string)
    (err : string → option string) (todo : list string) (st : state) :
  NoDup todo → (∀ r, r ∈ todo → r ∈ own) →
  (∀ r, r ∈ todo → is_Some (rooms st !! r)) →
  ∃ st1 tr1 cs,
    forEach (delAll_iterator id own err) todo st = (st1, tr1, cs, false)
    ∧ (∀ r, rooms st1 !! r
            = if decide (r ∈ todo) then
                if decide (or_empty (rooms st) r ∖ {[id]} = ∅) then None
                else Some (or_empty (rooms st) r ∖ {[id]})
              else rooms st !! r)
    ∧ (forallb called_next cs = true
       ↔ ∀ r, r ∈ todo → or_empty (rooms st) r ∖ {[id]} = ∅ →
              err (room_channel nsp_name r) = None)
    ∧ (∀ e, EEmitError e ∈ tr1
            ↔ ∃ r, r ∈ todo ∧ or_empty (rooms st) r ∖ {[id]} = ∅
                   ∧ err (room_channel nsp_name r) = Some e).
Proof.
  revert st. induction todo as [|key todo IH]; intros st Hnodup Hown Hsome.
  { eexists _, _, _. split; [reflexivity|]. cbn.
    split; [done|]. split; set_unfold; naive_solver. }
  apply NoDup_cons in Hnodup as [Hfresh Hnodup].
  destruct (Hsome key) as [members Hlook]; [by left|].
  pose proof (delAll_iterator_any id own err key st members) as Hiter.
  set (step := if decide (members ∖ {[id]} = ∅) then _ else _) in Hiter.
  destruct step as [[st0 tr0] c] eqn:Hstep.
  assert (∀ r, r ≠ key → rooms st0 !! r = rooms st !! r) as Hframe.
  { intros r Hr. subst step.
    case_decide; injection Hstep as <- _ _; cbn;
      by rewrite ?lookup_delete_ne, ?lookup_insert_ne. }
  destruct (IH st0) as (st1 & tr1 & cs & Hloop & Hrooms & Hnext & Hemit);
    [done|intros; apply Hown; by right| |].
  { intros r Hr. rewrite Hframe; [apply Hsome; by right|set_solver]. }
  exists st1, (tr0 ++ tr1), (c :: cs).
  cbn. rewrite Hiter, Hloop; [|apply Hown; by left|done].
  assert (∀ r, r ∈ todo → or_empty (rooms st0) r = or_empty (rooms st) r)
    as Hsame.
  { intros r Hr. unfold or_empty. rewrite Hframe; [done|set_solver]. }
  split; [done|]. split; [|split].
  - intros r. rewrite Hrooms.
    destruct (decide (r ∈ key :: todo)) as [Hin|Hin];
      destruct (decide (r ∈ todo)) as [Hr|Hr].
    + by rewrite Hsame.
    + apply elem_of_cons in Hin as [->|]; [|done].
      rewrite (or_empty_Some _ _ _ Hlook). subst step.
      case_decide; injection Hstep as <- _ _; cbn;
        by rewrite ?lookup_delete_eq, ?lookup_insert_eq.
    + destruct Hin. by right.
    + apply Hframe. intros ->. destruct Hin. by left.
  - cbn. rewrite andb_true_iff, Hnext. split.
    + intros [Hc Hrest] r [->|Hr]%elem_of_cons Hempty.
      * rewrite (or_empty_Some _ _ _ Hlook) in Hempty. subst step.
        rewrite decide_True in Hstep by done. injection Hstep as _ _ <-.
        by destruct (err _).
      * apply Hrest; [done|]. by rewrite Hsame.
    + intros Hall. split.
      * subst step. case_decide as Hempty; injection Hstep as _ _ <-; [|done].
        rewrite Hall; [done|by left|].
        by rewrite (or_empty_Some _ _ _ Hlook).
      * intros r Hr Hempty. apply Hall; [by right|]. by rewrite <- Hsame.
  - intros e. rewrite elem_of_app, Hemit. split.
    + intros [Hin|(r & Hr & Hempty & He)].
      * exists key. split; [by left|].
        rewrite (or_empty_Some _ _ _ Hlook). subst step.
        case_decide; injection Hstep as _ <- _; [|by apply elem_of_nil in Hin].
        split; [done|]. destruct (err _); set_unfold; naive_solver.
      * exists r. split; [by right|]. by rewrite <- Hsame.
    + intros (r & [->|Hr]%elem_of_cons & Hempty & He).
      * left. rewrite (or_empty_Some _ _ _ Hlook) in Hempty. subst step.
        rewrite decide_True in Hstep by done. injection Hstep as _ <- _.
        rewrite He. set_unfold; naive_solver.
      * right. exists r. by rewrite Hsame.
Qed.

(** [delAll] of a known [id] on a consistent state, whatever the bus
    answers: the loop runs to its end without an exception. *)
Lemma delAll_any (id : string) (own : gset string)
    (err : string → option string) (st : state) :
  consistent st → sids st !! id = Some own →
  ∃ st1 tr1 cs,
    forEach (delAll_iterator id own err) (elements own) st = (st1, tr1, cs, false)
    ∧ sids st1 = sids st
    ∧ callbacks tr1 = []
    ∧ first_error cs = None
    ∧ (∀ r, rooms st1 !! r
            = if decide (r ∈ own) then
                if decide (or_empty (rooms st) r ∖ {[id]} = ∅) then None
                else Some (or_empty (rooms st) r ∖ {[id]})
              else rooms st !! r)
    ∧ (forallb called_next cs = true
       ↔ ∀ r, r ∈ own → or_empty (rooms st) r ∖ {[id]} = ∅ →
              err (room_channel nsp_name r) = None)
    ∧ (∀ e, EEmitError e ∈ tr1
            ↔ ∃ r, r ∈ own ∧ or_empty (rooms st) r ∖ {[id]} = ∅
                   ∧ err (room_channel nsp_name r) = Some e).
Proof.
  intros (Hmem & Hne & Hsub) Hown.
  destruct (forEach_delAll_any id own err (elements own) st)
    as (st1 & tr1 & cs & Hloop & Hrooms & Hnext & Hemit).
  { apply NoDup_elements. }
  { intros r. by rewrite elem_of_elements. }
  { intros r Hr%elem_of_elements.
    assert (id ∈ or_empty (rooms st) r) as Hin.
    { apply Hmem. by rewrite (or_empty_Some _ _ _ Hown). }
    apply or_empty_elem in Hin as (? & ? & _). eauto. }
  exists st1, tr1, cs. split; [done|].
  destruct (forEach_delAll_quiet _ _ _ _ _ _ _ _ _ Hloop) as (Hcb & Hsids & Hfirst).
  split; [done|]. split; [done|]. split; [done|]. split; [|split].
  - intros r. rewrite Hrooms.
    destruct (decide (r ∈ own)).
    + by rewrite decide_True by (by apply elem_of_elements).
    + by rewrite decide_False by (by rewrite elem_of_elements).
  - rewrite Hnext. by setoid_rewrite elem_of_elements.
  - intros e. rewrite Hemit. by setoid_rewrite elem_of_elements.
Qed.


Lemma sole_member_iff (st : state) (id room : string) :
  or_empty (rooms st) room ∖ {[id]} = ∅ ↔ ∀ id', member st id' room → id' = id.
Proof.
  setoid_rewrite member_or_empty. split.
  - intros Hempty id' Hid'. destruct (decide (id' = id)); [done|]. set_solver.
  - intros Honly. apply set_eq. intros id'. specialize (Honly id'). set_solver.
Qed.


Lemma forEach_throws (id : string) (own : gset string)
    (err : string → option string) (keys : list string) (st : state)
    (room : string) :
  (∀ r, r ∈ keys → r ∈ own) → room ∈ keys → rooms st !! room = None →
  (forEach (delAll_iterator id own err) keys st).2 = true.
Proof.
  revert st. induction keys as [|key keys IH]; intros st Hown Hin Hnone.
  { by apply elem_of_nil in Hin. }
  cbn. destruct (delAll_iterator id own err key st) as [[[st0 tr0] c]|] eqn:Hiter;
    [|done].
  destruct (decide (key = room)) as [->|Hne].
  { unfold delAll_iterator in Hiter.
    rewrite bool_decide_eq_true_2, Hnone in Hiter; [done|]. apply Hown. by left. }
  apply elem_of_cons in Hin as [->|Hin]; [done|].
  apply delAll_iterator_commands in Hiter as (Hframe & _); [|apply Hown; by left].
  specialize (IH st0). destruct (forEach _ keys st0) as [[[st2 tr2] cs2] exn2].
  cbn in *. apply IH; [intros; apply Hown; by right|done|].
  rewrite Hframe; done.
Qed.

(** After a [delAll] that met a refused unsubscribe, [delAll] of the same
    [id] throws a TypeError, with or without a callback and whatever the bus
    answers now: [sids[id]] still lists a room that [rooms] no longer
    has. *)
Theorem delAll_retry_throws (id : string) (fn fn' : bool)
    (err err' : string → option string) (st : state) (own : gset string)
    (room e : string) :
  reachable st → sids st !! id = Some own →
  room ∈ own →
  (∀ id', member st id' room → id' = id) →
  err (room_channel nsp_name room) = Some e →
  thrown (delAll id fn' err' (final (delAll id fn err st))) = Some "TypeError".
Proof.
  intros Hst%reachable_consistent Hown Hroom Honly%sole_member_iff He.
  destruct (delAll_any id own err st Hst Hown)
    as (st1 & tr1 & cs & Hloop & Hsids & Hcb & Hfirst & Hrooms & Hnext & Hemit).
  assert (forallb called_next cs = false) as Hall.
  { apply not_true_iff_false. rewrite Hnext. intros Hok.
    rewrite Hok in He; done. }
  assert (final (delAll id fn err st) = st1) as ->.
  { unfold delAll. rewrite Hown, Hloop. unfold forEach_final.
    by rewrite Hfirst, Hall. }
  unfold delAll. rewrite Hsids, Hown.
  pose proof (forEach_throws id own err' (elements own) st1 room) as Hthrows.
  destruct (forEach _ (elements own) st1) as [[[st2 tr2] cs2] exn2].
  cbn in Hthrows. rewrite Hthrows; [done| | |].
  - intros r. by rewrite elem_of_elements.
  - by apply elem_of_elements.
  - rewrite Hrooms. by rewrite !decide_True.
Qed.


(** ** The life of a query *)






(** The responses of the peers, each on the query's channel, bring the
    query to its end when the last expected one arrives. *)
Lemma run_responses (muid channel : string) (sofar : list string)
    (lists : list (list string)) :
  is_response_for muid channel = true → lists ≠ [] →
  callbacks (run (Query muid (Z.of_nat (length lists)) sofar true true)
                 (map (QMessage channel) lists)).2
  = [CbSids (sofar ++ concat lists)].
Proof.
  intros Hchn. revert sofar.
  induction lists as [|ids lists IH]; intros sofar Hne; [done|].
  cbn [map run deliver pending].
  rewrite onclientresponsemessage_match by done. cbn -[Z.of_nat].
  replace (Z.of_nat (S (length lists)) - 1)%Z with (Z.of_nat (length lists))
    by lia.
  case_bool_decide as Hlast.
  - destruct lists; [|done]. cbn. by rewrite !app_nil_r.
  - destruct (run _ (map _ lists)) as [q2 tr2] eqn:Hrun. cbn.
    specialize (IH (sofar ++ ids)). rewrite Hrun in IH. cbn in IH.
    rewrite IH by (by intros ->). by rewrite <- app_assoc.
Qed.


(** ** Publishes as a peer receives them *)

Lemma broadcast_publishes_shape (p : packet) (opts : options) (remote : bool)
    (chn : string) (m : payload) :
  (chn, m) ∈ publishes (broadcast p opts remote) →
  m = PBroadcast uid p opts ∧ is_request_channel chn = false.
Proof.
  intros Hin. destruct remote; [by apply elem_of_nil in Hin|].
  destruct opts as [[rs|] r].
  - rewrite broadcast_listed_rooms in Hin.
    apply list_elem_of_fmap in Hin as (room & [= -> ->] & _).
    split; [done|]. apply room_channel_not_request.
  - rewrite broadcast_absent_rooms in Hin.
    apply list_elem_of_singleton in Hin as [= -> ->].
    split; [done|]. apply nsp_channel_not_request.
Qed.

Lemma receive_broadcast (st : state) (chn sender : string) (p : packet)
    (o : options) (local : reply (option (list string))) (numsub : reply Z)
    (suberr : option string) (muid : string) :
  is_request_channel chn = false → uid ≠ sender → nsp p = Some nsp_name →
  receive st (chn, PBroadcast sender p o) local numsub suberr muid
  = Some (if decide (chn ∈ subscribed st) then [EBaseBroadcast p o] else []).
Proof.
  intros Hchn Hsender Hnsp. unfold receive. cbn.
  case_decide; [|done]. cbn. unfold handle, onmessage. rewrite Hchn.
  rewrite bool_decide_eq_false_2 by done. cbn.
  assert (default_nsp p = p) as -> by (unfold default_nsp; by rewrite Hnsp).
  rewrite Hnsp. by rewrite bool_decide_eq_false_2 by (by intros ?).
Qed.

Lemma receive_other_namespace (st : state) (chn sender n : string) (p : packet)
    (o : options) (local : reply (option (list string))) (numsub : reply Z)
    (suberr : option string) (muid : string) :
  is_request_channel chn = false → nsp p = Some n → n ≠ nsp_name →
  receive st (chn, PBroadcast sender p o) local numsub suberr muid = Some [].
Proof.
  intros Hchn Hnsp Hn. unfold receive. cbn.
  case_decide; [|done]. cbn. unfold handle, onmessage. rewrite Hchn.
  case_bool_decide; [done|]. cbn.
  assert (default_nsp p = p) as -> by (unfold default_nsp; by rewrite Hnsp).
  rewrite Hnsp. rewrite bool_decide_eq_true_2; [done|]. by intros [= ->].
Qed.

Lemma reachable_room_stored (st : state) (room : string) :
  reachable st →
  (is_Some (rooms st !! room) ↔ room_channel nsp_name room ∈ subscribed st)
  ∧ (is_Some (rooms st !! room) ↔ ∃ id, member st id room).
Proof.
  intros Hst. pose proof (reachable_consistent st Hst) as (_ & _ & Hsub).
  split; [by rewrite Hsub|].
  rewrite <- Hsub. by apply reachable_subscribed_iff.
Qed.


End Adapter.

(** * The properties at concrete inputs *)

Lemma onmessage_own_uid_ignored_witness :
  (∃ why, onmessage "socket.io" "abc123" "/nsp" "socket.io#/nsp#room#"
            (MBroadcast "abc123" (Some (Packet (Some "/nsp") "hi"))
                        (Options (Some ["room"]) ""))
          = Ignore why)
  ∧ handle "socket.io" "abc123" "/nsp" 50 "socket.io#/nsp#room#"
      (MBroadcast "abc123" (Some (Packet (Some "/nsp") "hi"))
                  (Options (Some ["room"]) ""))
      (Ok None) (Ok 2%Z) None "q1w2e3"
    = Some [].
Proof.
  apply onmessage_own_uid_ignored; [reflexivity|discriminate|left; reflexivity].
Defined.

Lemma onmessage_broadcast_dispatch_witness :
  onmessage "socket.io" "abc123" "/" "socket.io#/#"
    (MBroadcast "xyz789" (Some (Packet None "hi")) (Options None ""))
  = CallBroadcast (Packet (Some "/") "hi") (Options None "") true
  ∧ handle "socket.io" "abc123" "/" 50 "socket.io#/#"
      (MBroadcast "xyz789" (Some (Packet None "hi")) (Options None ""))
      (Ok None) (Ok 2%Z) None "q1w2e3"
    = Some [EBaseBroadcast (Packet (Some "/") "hi") (Options None "")].
Proof.
  apply (onmessage_broadcast_dispatch "socket.io" "abc123" "/" 50 "socket.io#/#"
           "xyz789" (Packet None "hi") (Options None "") (Ok None) (Ok 2%Z)
           None "q1w2e3");
    [reflexivity|discriminate|reflexivity].
Defined.

(** C8 as stated fails where the base adapter reports an error: the request
    is accepted and no response is published. *)
Lemma responder_silent_on_local_error :
  onmessage "socket.io" "abc123" "/nsp" "socket.io#clientrequest"
    (MRequest "/nsp" "xyz789" "q1w2e3" ["room"])
  = CallClients ["room"] false (Some "socket.io#q1w2e3#clientresponse") true
  ∧ publishes <$> handle "socket.io" "abc123" "/nsp" 50 "socket.io#clientrequest"
                    (MRequest "/nsp" "xyz789" "q1w2e3" ["room"])
                    (Err "lookup failed") (Ok 2%Z) None "m4n5b6"
    = Some [].
Proof. split; reflexivity. Qed.

Lemma responder_publishes_once_witness :
  handle "socket.io" "abc123" "/nsp" 50 "socket.io#clientrequest"
    (MRequest "/nsp" "xyz789" "q1w2e3" ["room"])
    (Ok (Some ["B1"; "B2"])) (Ok 2%Z) None "m4n5b6"
  = Some [EPublish "socket.io#q1w2e3#clientresponse" (PResponse ["B1"; "B2"])].
Proof.
  apply (responder_publishes_once "socket.io" "abc123" "/nsp" 50
           "socket.io#clientrequest" "xyz789" "q1w2e3" ["room"] (Ok 2%Z) None
           "m4n5b6");
    [reflexivity|discriminate].
Defined.

Lemma delAll_missing_callback_throws_witness :
  delAll "socket.io" "/" false "nobody" false (λ _, None) one_member
  = Outcome one_member [] (Some "TypeError")
  ∧ delAll "socket.io" "/" false "nobody" true (λ _, None) one_member
    = Outcome one_member [ECallback CbNull] None.
Proof. apply delAll_missing_callback_throws. reflexivity. Defined.

(** C6 as stated fails in two ways.  For a SID that is new, the pair of
    calls leaves an empty entry in [sids]; for a SID that is already in the
    room, it removes the SID from the room, drops the room and unsubscribes
    its channel. *)
Lemma add_del_changes_state :
  (let st := construct "socket.io" "/" in
   let st' := final (del "socket.io" "/" false "s" "r" true None
                       (final (add "socket.io" "/" false "s" "r" true None st))) in
   sids st !! "s" = None ∧ sids st' !! "s" = Some ∅)
  ∧ (let st := one_member in
     let st' := final (del "socket.io" "/" false "s" "r" true None
                         (final (add "socket.io" "/" false "s" "r" true None st))) in
     rooms st !! "r" = Some {["s"]} ∧ rooms st' !! "r" = None
     ∧ sids st !! "s" = Some {["r"]} ∧ sids st' !! "s" = Some ∅
     ∧ "socket.io#/#r#" ∈ subscribed st ∧ "socket.io#/#r#" ∉ subscribed st').
Proof.
  split; cbn zeta.
  - split; vm_compute; reflexivity.
  - repeat split; try (vm_compute; reflexivity).
    intros Hin. vm_compute in Hin. discriminate Hin.
Qed.

Lemma add_del_restores_witness :
  let st := one_member in
  let st' := final (del "socket.io" "/" false "t" "r" true None
                      (final (add "socket.io" "/" false "t" "r" true None st))) in
  rooms st' = rooms st
  ∧ subscribed st' = subscribed st
  ∧ sids st' = <["t" := or_empty (sids st) "t"]> (sids st)
  ∧ (is_Some (sids st !! "t") → sids st' = sids st).
Proof.
  apply (add_del_restores "socket.io" "/" false "t" "r" true true one_member).
  - intros Hin. vm_compute in Hin. discriminate Hin.
  - intros Hin. vm_compute in Hin. discriminate Hin.
  - intros Heq. vm_compute in Heq. discriminate Heq.
  - split; [intros _; by eexists|intros _; vm_compute; reflexivity].
Defined.

(** C7, at the input where it fails: the unsubscribe of the only room is
    answered with an error.  The error is emitted, [fn] is not called at
    all, [sids["s"]] stays and the room is gone.  With the same state and a
    bus that carries out the unsubscribe, [fn(null)] is called and
    [sids["s"]] is deleted. *)
Theorem delAll_unsubscribe_error_skips_callback :
  (let out := delAll "socket.io" "/" false "s" true (λ _, Some "ERR") one_member in
   trace out = [EUnsubscribe "socket.io#/#r#"; EEmitError "ERR"]
   ∧ callbacks (trace out) = []
   ∧ thrown out = None
   ∧ sids (final out) = sids one_member
   ∧ rooms (final out) = ∅)
  ∧ (let out := delAll "socket.io" "/" false "s" true (λ _, None) one_member in
     trace out = [EUnsubscribe "socket.io#/#r#"; ECallback CbNull]
     ∧ sids (final out) = ∅
     ∧ rooms (final out) = ∅).
Proof. repeat split; vm_compute; reflexivity. Qed.

(** The loop does not stop at a failed unsubscribe: with two rooms and a bus
    that refuses every unsubscribe, both rooms are dropped and both
    unsubscribes issued. *)
Lemma delAll_errors_do_not_stop_the_loop :
  let out := delAll "socket.io" "/" false "s" true (λ _, Some "ERR") two_rooms in
  EUnsubscribe "socket.io#/#r#" ∈ trace out
  ∧ EUnsubscribe "socket.io#/#q#" ∈ trace out
  ∧ callbacks (trace out) = []
  ∧ rooms (final out) = ∅
  ∧ sids (final out) = sids two_rooms.
Proof.
  cbn zeta.
  assert (trace (delAll "socket.io" "/" false "s" true (λ _, Some "ERR") two_rooms)
          = [EUnsubscribe "socket.io#/#q#"; EEmitError "ERR";
             EUnsubscribe "socket.io#/#r#"; EEmitError "ERR"]) as ->
    by (vm_compute; reflexivity).
  repeat split; try (vm_compute; reflexivity).
  - set_unfold; naive_solver.
  - set_unfold; naive_solver.
Qed.



(** Two peers expected (three subscribers): a stray message, one response,
    then the second response completes the query; the timer firing later
    changes nothing. *)
Lemma clients_fleet_calls_back_once_witness :
  let evs := [QMessage "socket.io#zzzzzz#clientresponse" ["X"];
              QMessage "socket.io#q1w2e3#clientresponse" ["B1"; "B2"];
              QMessage "socket.io#q1w2e3#clientresponse" ["C1"; "B1"];
              QTimeout] in
  completes 2 "q1w2e3" evs
  ∧ ∃ q tr0,
      clients "socket.io" "abc123" "/nsp" 50 ["room"] true None false
              (Ok (Some ["A1"; "A2"])) (Ok 3%Z) None "q1w2e3" = (Some q, tr0)
      ∧ ESetTimeout 100 ∈ tr0
      ∧ ∃ pre ev post,
          evs = pre ++ ev :: post
          ∧ ¬ completes 2 "q1w2e3" pre
          ∧ callbacks (snd (run q evs))
            = [CbSids (["A1"; "A2"] ++ concat (responses "q1w2e3" (pre ++ [ev])))].
Proof.
  intros evs.
  assert (completes 2 "q1w2e3" evs) as Hevs.
  { right. split; [reflexivity|]. vm_compute. discriminate. }
  split; [exact Hevs|].
  destruct (clients_fleet_calls_back_once "socket.io" "abc123" "/nsp" 50 ["room"]
              (Some ["A1"; "A2"]) 3 None "q1w2e3" evs)
    as (q & tr0 & Hcall & Htimer & _ & _ & _ & _ & Hdone).
  exists q, tr0. split; [exact Hcall|]. split; [exact Htimer|].
  destruct (Hdone Hevs) as (pre & ev & post & Hsplit & Hpre & _ & Hcb).
  exists pre, ev, post. split; [exact Hsplit|]. split; [exact Hpre|exact Hcb].
Defined.

(** * Between nodes *)

Section Fleet.

(** Two nodes on one bus with the same prefix: [uidA] publishes, [uidB]
    receives. *)
Variables (prefix uidA uidB : string) (timeoutB : Z) (listenerB : bool).
Hypothesis Hnodes : uidA ≠ uidB.

(** A broadcast to rooms, as a peer on the same namespace gets it: one
    publish per listed room; the peer's handler runs for the rooms it has a
    member in, and each run is one local emit of the whole packet with the
    whole list of rooms and no publish.  A peer with members in several of
    the listed rooms therefore emits several times. *)
Theorem room_broadcast_reaches_peer (n : string) (p : packet)
    (rs : list string) (r : string) (stB : state)
    (local : reply (option (list string))) (numsub : reply Z)
    (suberr : option string) (m : string) :
  nsp p = Some n → reachable prefix n listenerB stB →
  let opts := Options (Some rs) r in
  Forall2 (λ room pub,
             receive prefix uidB n timeoutB stB pub local numsub suberr m
             = Some (if decide (is_Some (rooms stB !! room))
                     then [EBaseBroadcast p opts] else []))
          rs (publishes (broadcast prefix uidA p opts false))
  ∧ (∀ room, is_Some (rooms stB !! room) ↔ ∃ id, member stB id room).
Proof.
  intros Hnsp Hst opts.
  split; [|intros room; by apply (reachable_room_stored prefix n listenerB stB room)].
  subst opts. rewrite broadcast_listed_rooms.
  apply Forall2_fmap_r, Forall_Forall2_diag, Forall_forall. intros room _.
  unfold compose. rewrite receive_broadcast;
    [|apply room_channel_not_request|by intros ->|done].
  rewrite Hnsp. cbn.
  destruct (reachable_room_stored prefix n listenerB stB room Hst) as [Hsub _].
  repeat case_decide; tauto.
Qed.

(** A broadcast without [rooms], as a peer on the same namespace gets it:
    one publish, on the namespace channel, which every reachable peer is
    subscribed to; its handler makes one local emit and publishes
    nothing. *)
Theorem namespace_broadcast_reaches_peer (n : string) (p : packet) (r : string)
    (stB : state) (local : reply (option (list string))) (numsub : reply Z)
    (suberr : option string) (m : string) :
  nsp p = Some n → reachable prefix n listenerB stB →
  let opts := Options None r in
  ∃ pub, publishes (broadcast prefix uidA p opts false) = [pub]
         ∧ pub.1 = nsp_channel prefix n
         ∧ receive prefix uidB n timeoutB stB pub local numsub suberr m
           = Some [EBaseBroadcast p opts].
Proof.
  intros Hnsp Hst opts. subst opts.
  assert (nsp_channel prefix n ∈ subscribed stB) as Hsub.
  { apply (reachable_other_channels prefix n listenerB stB); [done| |by left].
    intros room Heq. symmetry in Heq.
    by apply room_channel_not_nsp_channel in Heq. }
  rewrite broadcast_absent_rooms, Hnsp.
  eexists. split; [reflexivity|]. split; [reflexivity|].
  rewrite receive_broadcast;
    [|apply nsp_channel_not_request|by intros ->|done].
  change (js_string (Some n)) with n. by rewrite decide_True.
Qed.


End Fleet.

(** The request of a fleet call and the answers of the peers.  With as many
    subscribers of the request channel as there are peers plus the asking
    node, each peer on the namespace answers the published request by one
    publish on the query's response channel, and once these are delivered
    the callback gets the local list followed by the lists of the peers in
    the order of arrival. *)
Theorem scatter_gather (prefix uidA n : string) (timeoutA : Z) (rs : list string)
    (idsA : option (list string)) (suberr : option string) (muid : string)
    (peers : list (string * option (list string))) :
  has_hash muid = false → peers ≠ [] →
  (∀ peer, peer ∈ peers → peer.1 ≠ uidA) →
  ∃ q tr0,
    clients prefix uidA n timeoutA rs true None false (Ok idsA)
            (Ok (Z.of_nat (length peers) + 1)%Z) suberr muid = (Some q, tr0)
    ∧ (request_channel prefix, PRequest n uidA muid rs) ∈ publishes tr0
    ∧ decode (PRequest n uidA muid rs) = Some (MRequest n uidA muid rs)
    ∧ (∀ peer timeoutP numsub' suberr' m',
         peer ∈ peers →
         handle prefix peer.1 n timeoutP (request_channel prefix)
                (MRequest n uidA muid rs) (Ok peer.2) numsub' suberr' m'
         = Some [EPublish (response_channel prefix muid)
                          (PResponse (default [] peer.2))])
    ∧ callbacks (run q (map (λ peer, QMessage (response_channel prefix muid)
                                              (default [] peer.2)) peers)).2
      = [CbSids (default [] idsA
                 ++ concat (map (λ peer, default [] peer.2) peers))].
Proof.
  intros Hmuid Hpeers Hother. eexists _, _. split; [reflexivity|].
  split; [destruct suberr; cbn; set_unfold; naive_solver|].
  split; [done|]. split.
  - intros peer timeoutP numsub' suberr' m' Hpeer. unfold handle.
    rewrite onmessage_request_accepted;
      [done|apply request_channel_recognised|by apply Hother].
  - replace (Z.of_nat (length peers) + 1 - 1)%Z
      with (Z.of_nat (length (map (λ peer : string * option (list string),
                                     default [] peer.2) peers)))
      by (rewrite length_map; lia).
    rewrite <- (run_responses muid (response_channel prefix muid)).
    + by rewrite map_map.
    + by apply response_channel_recognised.
    + by destruct peers.
Qed.

(** A broadcast is ignored by every facade of another namespace, on the
    publishing node or on a peer, subscribed to its channel or not. *)
Theorem other_namespace_ignores (prefix uidA uidB n n' : string) (timeoutB : Z)
    (p : packet) (opts : options) (remote : bool) (stB : state)
    (pub : string * payload) (local : reply (option (list string)))
    (numsub : reply Z) (suberr : option string) (m : string) :
  nsp p = Some n → n ≠ n' →
  pub ∈ publishes (broadcast prefix uidA p opts remote) →
  receive prefix uidB n' timeoutB stB pub local numsub suberr m = Some [].
Proof.
  intros Hnsp Hn Hpub. destruct pub as [chn msg].
  apply broadcast_publishes_shape in Hpub as [-> Hchn].
  by eapply receive_other_namespace.
Qed.

(** * The factory *)

Lemma split_no_char (c : ascii) (s : string) :
  has_char c s = false → split c s = [s].
Proof.
  induction s as [|c' s IH]; [done|]. cbn [has_char split].
  intros [Hc Hs]%orb_false_iff. rewrite Hc, IH; done.
Qed.

Lemma split_app_char (c : ascii) (a b : string) :
  split c (a +:+ String c b) = split c a ++ split c b.
Proof.
  induction a as [|c' a IH].
  - change (split c (String c b) = [""] ++ split c b).
    cbn [split]. by rewrite Ascii.eqb_refl.
  - change (split c (String c' (a +:+ String c b))
            = split c (String c' a) ++ split c b).
    cbn [split]. rewrite IH.
    destruct (Ascii.eqb c' c); [done|].
    pose proof (split_nonempty c a). by destruct (split c a).
Qed.

Section FactoryProperties.

Variables (number : Type) (Number : port_value → number).



(** A URI string decides the host and the value handed to [Number] for the
    port, whatever the options say: ["host:port"] gives that host and,
    unless the port part is empty, [Number] of that port string; a URI
    without a colon gives that host and [Number(6379)], even if the options
    name a port.  The prefix and the timeout still come from the
    options. *)
Theorem adapter_uri_overrides_options (h p : string)
    (opts : option adapter_options) (uid : string) :
  h ≠ "" → has_char ":"%char h = false → has_char ":"%char p = false →
  (∃ cfg, adapter number Number (UriString (h +:+ ":" +:+ p)) opts uid = Some cfg
          ∧ cfg_host cfg = h
          ∧ cfg_port cfg = Number (if decide (p = "") then PortNumber 6379
                                   else PortString p)
          ∧ cfg_prefix cfg = string_or (opt_key (default no_options opts)) "socket.io"
          ∧ cfg_timeout cfg = number_or (opt_timeout (default no_options opts)) 50)
  ∧ (∃ cfg, adapter number Number (UriString h) opts uid = Some cfg
            ∧ cfg_host cfg = h
            ∧ cfg_port cfg = Number (PortNumber 6379)).
Proof.
  intros Hh Hhc Hpc. split; eexists; unfold adapter.
  - rewrite decide_False by (by destruct h).
    change (h +:+ ":" +:+ p) with (h +:+ String ":"%char p).
    rewrite split_app_char, (split_no_char _ h), (split_no_char _ p) by done.
    split; [reflexivity|]. cbn.
    split; [by rewrite decide_False|]. split; [by case_decide|done].
  - rewrite decide_False by done. rewrite (split_no_char _ h) by done.
    split; [reflexivity|]. cbn. by rewrite decide_False.
Qed.

End FactoryProperties.

(** * The further properties at concrete inputs *)

Lemma joined_reachable : reachable "socket.io" "/" false joined.
Proof.
  replace joined
    with (final (exec "socket.io" "/" false (Add "s" "r" true)
                   (construct "socket.io" "/")))
    by (vm_compute; reflexivity).
  apply reachable_exec, reachable_construct.
Qed.

Lemma joined_only_member (id : string) : member joined id "r" → id = "s".
Proof.
  intros (members & Hlook & Hin).
  change (rooms joined) with ({["r" := {["s"]}]} : gmap string (gset string))
    in Hlook.
  rewrite lookup_singleton_eq in Hlook.
  injection Hlook as <-. by apply elem_of_singleton in Hin.
Qed.

Lemma joined_member : member joined "s" "r".
Proof. exists {["s"]}. split; [reflexivity|]. by apply elem_of_singleton. Qed.

Lemma room_channels_distinct_witness :
  room_channel "socket.io" "/a" "x" = room_channel "socket.io" "/a" "x"
  ∧ "/a" = "/a" ∧ "x" = "x".
Proof.
  split; [reflexivity|].
  apply (room_channels_distinct "socket.io" "/a" "/a" "x" "x"); reflexivity.
Defined.

Lemma response_channel_routes_witness :
  is_response_for "q1w2e3" (response_channel "socket.io" "q1w2e3") = true
  ↔ "q1w2e3" = "q1w2e3".
Proof. apply response_channel_routes; reflexivity. Defined.

Lemma own_broadcast_ignored_witness :
  ∃ msg,
    decode (PBroadcast "abc123" (Packet (Some "/") "hi") (Options (Some ["r"]) ""))
    = Some msg
    ∧ onmessage "socket.io" "abc123" "/" "socket.io#/#r#" msg
      = Ignore "ignore same uid".
Proof.
  apply (own_broadcast_ignored "socket.io" "abc123" "/"
           (Packet (Some "/") "hi") (Options (Some ["r"]) "") false).
  vm_compute. left.
Defined.

Lemma inbound_broadcast_sends_nothing_witness :
  ∃ tr,
    handle "socket.io" "abc123" "/" 50 "socket.io#/#r#"
           (MBroadcast "xyz789" (Some (Packet (Some "/") "hi"))
                       (Options (Some ["r"]) ""))
           (Ok None) (Ok 2%Z) None "q1w2e3" = Some tr
    ∧ filter is_command tr = []
    ∧ (length (local_emits tr) ≤ 1)%nat.
Proof. apply inbound_broadcast_sends_nothing. reflexivity. Defined.


Lemma add_membership_witness :
  let st' := final (add "socket.io" "/" false "t" "r" true None joined) in
  member st' "s" "r" ↔ member joined "s" "r".
Proof.
  intros st'.
  destruct (add_membership "socket.io" "/" false "t" "r" true None joined)
    as (_ & _ & Hframe).
  apply (Hframe "s" "r"). by intros [[=] _].
Defined.

Lemma del_membership_witness :
  let st' := final (del "socket.io" "/" false "t" "r" true None joined) in
  member st' "s" "r" ↔ member joined "s" "r".
Proof.
  intros st'.
  destruct (del_membership "socket.io" "/" false "t" "r" true None joined)
    as (_ & _ & Hframe).
  apply (Hframe "s" "r"). by intros [[=] _].
Defined.

Lemma failed_subscribe_keeps_membership_witness :
  let out := add "socket.io" "/" false "s" "q" true (Some "ERR") joined in
  member (final out) "s" "q"
  ∧ (room_channel "socket.io" "/" "q" ∉ subscribed (final out))
  ∧ trace out = [ESubscribe (room_channel "socket.io" "/" "q");
                 EEmitError "ERR"]
  ∧ callbacks (trace out) = [].
Proof.
  intros out.
  destruct (failed_subscribe_keeps_membership "socket.io" "/" false "s" "q" true
              "ERR" joined joined_reachable)
    as (Hmember & Hsub & Htrace & Hcb).
  - intros id (members & Hlook & _). vm_compute in Hlook. discriminate Hlook.
  - split; [exact Hmember|]. split; [exact Hsub|].
    split; [exact Htrace|exact (Hcb eq_refl)].
Defined.

Lemma failed_unsubscribe_keeps_subscription_witness :
  let out := del "socket.io" "/" false "s" "r" true (Some "ERR") joined in
  (∀ id, ¬ member (final out) id "r")
  ∧ room_channel "socket.io" "/" "r" ∈ subscribed (final out)
  ∧ trace out = [EUnsubscribe (room_channel "socket.io" "/" "r");
                 EEmitError "ERR"]
  ∧ callbacks (trace out) = [].
Proof.
  intros out.
  destruct (failed_unsubscribe_keeps_subscription "socket.io" "/" false "s" "r"
              true "ERR" joined joined_reachable joined_member
              joined_only_member)
    as (Hnone & Hsub & Htrace & Hcb).
  split; [exact Hnone|]. split; [exact Hsub|].
  split; [exact Htrace|exact (Hcb eq_refl)].
Defined.




Lemma constructor_channels_stay_witness :
  nsp_channel "socket.io" "/" ∈ subscribed joined
  ∧ request_channel "socket.io" ∈ subscribed joined.
Proof.
  destruct (constructor_channels_stay "socket.io" "/" false joined "x" joined_reachable)
    as (_ & Hnsp & Hreq & _).
  split; [exact Hnsp|exact Hreq].
Defined.

Lemma all_leave_unsubscribes_witness :
  room_channel "socket.io" "/" "r"
    ∉ subscribed (leave_all "socket.io" "/" false ["t"; "s"] "r" joined).
Proof.
  destruct (all_leave_unsubscribes "socket.io" "/" false ["t"; "s"] "r" joined
              joined_reachable) as (_ & Hunsub & _).
  - intros id ->%joined_only_member. by right; left.
  - exact Hunsub.
Defined.


Lemma delAll_retry_throws_witness :
  thrown (delAll "socket.io" "/" false "s" true (λ _, None)
            (final (delAll "socket.io" "/" false "s" true (λ _, Some "ERR") joined)))
  = Some "TypeError".
Proof.
  apply (delAll_retry_throws "socket.io" "/" false "s" true true (λ _, Some "ERR")
           (λ _, None) joined {["r"]} "r" "ERR" joined_reachable eq_refl).
  - by apply elem_of_singleton.
  - apply joined_only_member.
  - reflexivity.
Defined.

Lemma scatter_gather_witness :
  ∃ q tr0,
    clients "socket.io" "abc123" "/nsp" 50 ["room"] true None false
            (Ok (Some ["A1"; "A2"])) (Ok 3%Z) None "q1w2e3" = (Some q, tr0)
    ∧ callbacks
        (run q [QMessage "socket.io#q1w2e3#clientresponse" ["B1"; "B2"];
                QMessage "socket.io#q1w2e3#clientresponse" []]).2
      = [CbSids ["A1"; "A2"; "B1"; "B2"]].
Proof.
  destruct (scatter_gather "socket.io" "abc123" "/nsp" 50 ["room"]
              (Some ["A1"; "A2"]) None "q1w2e3"
              [("xyz789", Some ["B1"; "B2"]); ("def456", None)])
    as (q & tr0 & Hcall & _ & _ & _ & Hcb).
  - reflexivity.
  - discriminate.
  - intros peer [->|[->|[]%elem_of_nil]%elem_of_cons]%elem_of_cons;
      discriminate.
  - exists q, tr0. split; [exact Hcall|exact Hcb].
Defined.

Lemma room_broadcast_reaches_peer_witness :
  Forall2 (λ room pub,
             receive "socket.io" "xyz789" "/" 50 joined pub (Ok None) (Ok 2%Z)
                     None "q1w2e3"
             = Some (if decide (is_Some (rooms joined !! room))
                     then [EBaseBroadcast (Packet (Some "/") "hi")
                                          (Options (Some ["r"; "q"]) "")]
                     else []))
          ["r"; "q"]
          (publishes (broadcast "socket.io" "abc123" (Packet (Some "/") "hi")
                                (Options (Some ["r"; "q"]) "") false)).
Proof.
  apply (room_broadcast_reaches_peer "socket.io" "abc123" "xyz789" 50 false);
    [discriminate|reflexivity|apply joined_reachable].
Defined.

Lemma namespace_broadcast_reaches_peer_witness :
  ∃ pub,
    publishes (broadcast "socket.io" "abc123" (Packet (Some "/") "hi")
                         (Options None "") false) = [pub]
    ∧ pub.1 = nsp_channel "socket.io" "/"
    ∧ receive "socket.io" "xyz789" "/" 50 joined pub (Ok None) (Ok 2%Z) None
              "q1w2e3"
      = Some [EBaseBroadcast (Packet (Some "/") "hi") (Options None "")].
Proof.
  apply (namespace_broadcast_reaches_peer "socket.io" "abc123" "xyz789" 50 false);
    [discriminate|reflexivity|apply joined_reachable].
Defined.

Lemma other_namespace_ignores_witness :
  receive "socket.io" "xyz789" "/" 50 joined
          ("socket.io#/nsp#r#",
           PBroadcast "abc123" (Packet (Some "/nsp") "hi")
                      (Options (Some ["r"]) ""))
          (Ok None) (Ok 2%Z) None "q1w2e3"
  = Some [].
Proof.
  apply (other_namespace_ignores "socket.io" "abc123" "xyz789" "/nsp" "/" 50
           (Packet (Some "/nsp") "hi") (Options (Some ["r"]) "") false);
    [reflexivity|discriminate|].
  vm_compute. left.
Defined.


Lemma adapter_uri_overrides_options_witness :
  ∃ cfg,
    adapter (option Z)
            (λ v, match v with PortNumber n => Some n | PortString _ => None end)
            (UriString "redis.local")
            (Some (AdapterOptions (Some "other") (Some (PortNumber 7000)) None
                                  None None None None)) "abc123"
    = Some cfg
    ∧ cfg_host cfg = "redis.local"
    ∧ cfg_port cfg = Some 6379%Z.
Proof.
  apply (adapter_uri_overrides_options (option Z)
           (λ v, match v with PortNumber n => Some n | PortString _ => None end)
           "redis.local" "6380");
    [discriminate|reflexivity|reflexivity].
Defined.

End Redis.
